(** * log-courier: registrar, TLS transport and process entry point

    A shallow embedding of the Go sources of the agent:
    - the registrar event handlers, [LoadPrevious] and [Register];
    - the TLS transport ([Connect], [sender], [receiver], [receiverRead],
      [Disconnect], [Flush] and the [TransportTlsWrap.Write] wrapper);
    - the binary's [startUp], [Run], [loadConfig] and [reloadConfig].

    Go maps are [gmap]s, pointers are addresses ([positive]), goroutines are
    run against a script of what their environment (socket, signals, other
    goroutines) does next, and a Go panic or a blocked operation is an explicit
    outcome. *)

From Stdlib Require Import ZArith Sorting.Sorted.
From stdpp Require Import gmap strings list fin_maps pretty.

#[local] Set Warnings "-clear-no-such-hyp".

Local Open Scope Z_scope.

(* ===================================================================== *)
(** ** Registrar *)
(* ===================================================================== *)

Module Registrar.

(** A [*ProspectorInfo]: the registrar only ever compares these pointers and
    uses them as map keys. *)
Abbreviation ProspectorInfoPtr := positive.

(** Modelled from the spec: the identity fields a [FileState] stores (the
    declaration of [FileState] and of [PopulateFileIds] is not part of the
    registrar file); "identity: derived from (device id, inode)". *)
Record FileIdentity := mkFileIdentity { Device : Z; Inode : Z }.

(** [os.FileInfo] as far as [PopulateFileIds] reads it. *)
Record FileInfo := mkFileInfo { fi_Device : Z; fi_Inode : Z }.

(** [FileState]: [Source *string], [Offset int64], and the identity fields.
    [Source] points at the string of the event that set it; the events are
    never written after they are sent, so the pointer is read as its value. *)
Record FileState := mkFileState {
  Source : string;
  Offset : Z;
  Ids : FileIdentity
}.

Definition zeroIds : FileIdentity := mkFileIdentity 0 0.

Definition PopulateFileIds (fs : FileState) (info : FileInfo) : FileState :=
  mkFileState (Source fs) (Offset fs) (mkFileIdentity (fi_Device info) (fi_Inode info)).

(** One entry of [EventsEvent.Events]: the originating [ProspectorInfo] and the
    offset reached after the event. *)
Record FileEvent := mkFileEvent {
  ev_ProspectorInfo : ProspectorInfoPtr;
  ev_Offset : Z
}.

(** The [RegistrarEvent] interface and its four implementations. *)
Inductive RegistrarEvent :=
| NewFileEvent (pinfo : ProspectorInfoPtr) (source : string) (offset : Z) (fileinfo : FileInfo)
| DeletedEvent (pinfo : ProspectorInfoPtr)
| RenamedEvent (pinfo : ProspectorInfoPtr) (source : string)
| EventsEvent (events : list FileEvent).

(** [func (e *NewFileEvent) Process] *)
Definition NewFileEvent_Process (pinfo : ProspectorInfoPtr) (source : string) (offset : Z)
    (fileinfo : FileInfo) (state : gmap positive FileState) : gmap positive FileState :=
  let state1 := <[pinfo := mkFileState source offset zeroIds]> state in
  match state1 !! pinfo with
  | Some fs => <[pinfo := PopulateFileIds fs fileinfo]> state1
  | None => state1
  end.

(** [func (e *DeletedEvent) Process] (the logging is dropped) *)
Definition DeletedEvent_Process (pinfo : ProspectorInfoPtr)
    (state : gmap positive FileState) : gmap positive FileState :=
  delete pinfo state.

(** [func (e *RenamedEvent) Process] *)
Definition RenamedEvent_Process (pinfo : ProspectorInfoPtr) (source : string)
    (state : gmap positive FileState) : gmap positive FileState :=
  match state !! pinfo with
  | None => state
  | Some fs => <[pinfo := mkFileState source (Offset fs) (Ids fs)]> state
  end.

(** The body of the [for _, event := range e.Events] loop. *)
Definition EventsEvent_step (state : gmap positive FileState) (event : FileEvent)
    : gmap positive FileState :=
  match state !! ev_ProspectorInfo event with
  | None => state
  | Some fs => <[ev_ProspectorInfo event := mkFileState (Source fs) (ev_Offset event) (Ids fs)]> state
  end.

(** [func (e *EventsEvent) Process] *)
Definition EventsEvent_Process (events : list FileEvent)
    (state : gmap positive FileState) : gmap positive FileState :=
  fold_left EventsEvent_step events state.

(** Dynamic dispatch of [event.Process(r.state)]. *)
Definition Process (e : RegistrarEvent) (state : gmap positive FileState)
    : gmap positive FileState :=
  match e with
  | NewFileEvent p s o fi => NewFileEvent_Process p s o fi state
  | DeletedEvent p => DeletedEvent_Process p state
  | RenamedEvent p s => RenamedEvent_Process p s state
  | EventsEvent evs => EventsEvent_Process evs state
  end.

(** [for _, event := range events { event.Process(r.state) }] *)
Definition ProcessBatch (events : list RegistrarEvent) (state : gmap positive FileState)
    : gmap positive FileState :=
  fold_left (fun st e => Process e st) events state.

Record Registrar := mkRegistrar {
  references : Z;
  persistdir : string;
  statefile : string;
  state : gmap positive FileState
}.

(** [NewRegistrar] (control and channel are not state of the model). *)
Definition NewRegistrar (dir : string) : Registrar :=
  mkRegistrar 0 dir ".log-courier" ∅.

(** [os.PathSeparator] on the platforms the agent's state path is described
    for. *)
Definition PathSeparator : string := "/".

(** The loop that builds [state_json] in [Register]: one assignment
    [state_json[*value.Source] = value] per entry, in the order the [range]
    over the Go map happens to visit them. *)
Definition build_state_json (visit : list (positive * FileState)) : gmap string FileState :=
  fold_left (fun acc kv => <[Source (snd kv) := snd kv]> acc) visit ∅.

Section WithEnvironment.

(** The order in which a [range] over a Go map visits its entries is not
    specified; it is a parameter here. *)
Variable range_state : gmap positive FileState -> list (positive * FileState).
Variable range_data : gmap string FileState -> list (string * FileState).

(** The file system and the JSON decoder, as [LoadPrevious] uses them:
    [os.Open] fails or gives a file, and [decoder.Decode(&data)] leaves in
    [data] whatever it decoded (its error is not looked at). *)
Variable File : Type.
Variable os_Open : string -> option File.
Variable json_Decode : File -> gmap string FileState.

(** One iteration of [for events := range r.registrar_chan]: the batch is
    processed, then the document is built and handed to [WriteRegistry]. *)
Definition Register_batch (r : Registrar) (events : list RegistrarEvent)
    : Registrar * gmap string FileState :=
  let st := ProcessBatch events (state r) in
  (mkRegistrar (references r) (persistdir r) (statefile r) st,
   build_state_json (range_state st)).

(** [func (r *Registrar) Register]: the batches received until the channel
    is closed; returns the registrar and the documents written, oldest
    first. *)
Fixpoint Register (r : Registrar) (chan : list (list RegistrarEvent))
    : Registrar * list (gmap string FileState) :=
  match chan with
  | [] => (r, [])
  | events :: chan' =>
      let '(r1, doc) := Register_batch r events in
      let '(r2, docs) := Register r1 chan' in
      (r2, doc :: docs)
  end.

(** The loop [for file, state := range data] of [LoadPrevious].
    [NewProspectorInfoFromFileState] allocates a new [ProspectorInfo]; [next]
    is the next free address. *)
Fixpoint LoadPrevious_loop (visit : list (string * FileState))
    (resume : gmap string positive) (st : gmap positive FileState) (next : positive)
    : gmap string positive * gmap positive FileState * positive :=
  match visit with
  | [] => (resume, st, next)
  | (file, fs) :: visit' =>
      let resume1 := <[file := next]> resume in
      let st1 := match resume1 !! file with
                 | Some p => <[p := fs]> st
                 | None => st
                 end in
      LoadPrevious_loop visit' resume1 st1 (Pos.succ next)
  end.

Record LoadResult := mkLoadResult {
  lr_resume : option (gmap string positive);   (* [None] is Go's nil map *)
  lr_registrar : Registrar;
  lr_next : positive;
  lr_opened : list string                      (* the [os.Open] calls made *)
}.

(** [func (r *Registrar) LoadPrevious] *)
Definition LoadPrevious (r : Registrar) (next : positive) : LoadResult :=
  let filename := persistdir r +:+ PathSeparator +:+ ".log-courier" in
  let '(f, opened) :=
    match os_Open filename with
    | Some f => (Some f, [filename])
    | None =>
        let filename2 := persistdir r +:+ PathSeparator +:+ ".log-courier.new" in
        (os_Open filename2, [filename; filename2])
    end in
  match f with
  | None => mkLoadResult None r next opened
  | Some f =>
      let data := json_Decode f in
      let '(resume, st, next') := LoadPrevious_loop (range_data data) ∅ ∅ next in
      mkLoadResult (Some resume)
        (mkRegistrar (references r) (persistdir r) (statefile r) st) next' opened
  end.

End WithEnvironment.

(** The offsets the event stream carries for the file [p], in stream order:
    those of its [NewFileEvent]s and of its entries in [EventsEvent]s. *)
Definition offsets_of_event (p : positive) (e : RegistrarEvent) : list Z :=
  match e with
  | NewFileEvent q _ o _ => if decide (q = p) then [o] else []
  | EventsEvent evs =>
      omap (fun ev => if decide (ev_ProspectorInfo ev = p) then Some (ev_Offset ev) else None) evs
  | _ => []
  end.

Definition offsets_for (p : positive) (events : list RegistrarEvent) : list Z :=
  concat (map (offsets_of_event p) events).

(** The offset stored for [p], if [p] is tracked. *)
Definition stored_offset (st : gmap positive FileState) (p : positive) : list Z :=
  match st !! p with
  | Some fs => [Offset fs]
  | None => []
  end.

(** What loading the document [data] leaves behind: a resume map with the
    keys of the document, each pointing at a new [ProspectorInfo] under which
    the registrar's state holds the decoded [FileState], and nothing else. *)
Definition loaded_from (data : gmap string FileState) (resume : option (gmap string positive))
    (r : Registrar) : Prop :=
  ∃ m, resume = Some m
       ∧ dom m = dom data
       ∧ (∀ file fs, data !! file = Some fs →
            ∃ p, m !! file = Some p ∧ state r !! p = Some fs)
       ∧ (∀ p fs, state r !! p = Some fs →
            ∃ file, data !! file = Some fs ∧ m !! file = Some p).

(** *** Sample states *)

(** One tracked file, [ProspectorInfo] 1, at offset [o]. *)
Definition tracked_at (o : Z) : gmap positive FileState :=
  {[ 1%positive := mkFileState "/var/log/a.log" o (mkFileIdentity 2049 77) ]}.

Definition registrar_at (o : Z) : Registrar :=
  mkRegistrar 1 "/var/lib/log-courier" ".log-courier" (tracked_at o).

(** Two tracked files whose states carry the same path. *)
Definition two_files_one_path : gmap positive FileState :=
  <[ 2%positive := mkFileState "/var/log/a.log" 700 (mkFileIdentity 2049 78) ]> (tracked_at 10).

(** A persist directory holding only the [.new] file, left by a crash
    between the write and the rename. The file is its decoded content. *)
Definition only_new_file (path : string) : option (gmap string FileState) :=
  if String.eqb path "/var/lib/log-courier/.log-courier.new"
  then Some {[ "/var/log/a.log" := mkFileState "/var/log/a.log" 10 (mkFileIdentity 2049 77) ]}
  else None.

End Registrar.

(* ===================================================================== *)
(** ** TLS transport *)
(* ===================================================================== *)

Module Transport.

Abbreviation byte := Byte.byte.

(** Go's [error] values as the transport tells them apart:
    [net_err, ok := err.(net.Error); ok && net_err.Timeout()]. *)
Inductive error :=
| NetError (is_timeout : bool) (msg : string)
| PlainError (msg : string).

Definition errors_New (msg : string) : error := PlainError msg.

Definition Timeout (e : error) : bool :=
  match e with
  | NetError t _ => t
  | PlainError _ => false
  end.

(** What a Go operation can do other than return. *)
Inductive result (A : Type) :=
| Ok (a : A)
| Panic (msg : string)
| Blocked.
Arguments Ok {A} a.
Arguments Panic {A} msg.
Arguments Blocked {A}.

(** A Go channel: nil, or made with a capacity, holding its queued values,
    open or closed. *)
Inductive chan (A : Type) :=
| ChanNil
| Chan (cap : nat) (buf : list A) (closed : bool).
Arguments ChanNil {A}.
Arguments Chan {A} cap buf closed.

Definition make_chan {A : Type} (cap : nat) : chan A := Chan cap [] false.

(** [close(c)] *)
Definition close_chan {A : Type} (c : chan A) : result (chan A) :=
  match c with
  | ChanNil => Panic "close of nil channel"
  | Chan _ _ true => Panic "close of closed channel"
  | Chan cap buf false => Ok (Chan cap buf true)
  end.

(** [c <- x] *)
Definition chan_send {A : Type} (c : chan A) (x : A) : result (chan A) :=
  match c with
  | ChanNil => Blocked
  | Chan _ _ true => Panic "send on closed channel"
  | Chan cap buf false =>
      if (length buf <? cap)%nat then Ok (Chan cap (buf ++ [x]) false) else Blocked
  end.

(** [<-c] *)
Definition chan_recv {A : Type} (c : chan A) : result (A * chan A) :=
  match c with
  | ChanNil => Blocked
  | Chan cap (x :: buf) closed => Ok (x, Chan cap buf closed)
  | Chan _ [] _ => Blocked
  end.

(** The number of values waiting in a channel. *)
Definition chan_len {A : Type} (c : chan A) : nat :=
  match c with
  | ChanNil => 0%nat
  | Chan _ buf _ => length buf
  end.

(** [func (t *TransportTls) setChan(set chan int)]:
    [select { case set <- 1: default: }] *)
Definition setChan (set : chan Z) : result (chan Z) :=
  match chan_send set 1 with
  | Blocked => Ok set
  | r => r
  end.

(** What travels on [recv_chan chan interface{}]: an error or a message. *)
Inductive recv_item :=
| RecvErr (e : error)
| RecvMsg (m : list byte).

Record NetworkConfig := mkNetworkConfig {
  Servers : list string;
  timeout : Z;
  reconnect : Z
}.

(** The [*tls.Conn] of the transport: where it is connected to and whether
    it has been closed. *)
Record Conn := mkConn { remote : string; conn_closed : bool }.

Record TransportTls := mkTransportTls {
  config : NetworkConfig;
  socket : option Conn;
  hostport_re : string -> option (string * string);   (* [FindSubmatch]: host, port *)
  write_buffer : list byte;
  wait : Z;                                           (* the [sync.WaitGroup] counter *)
  shutdown : chan Z;
  send_chan : chan (list byte);
  recv_chan : chan recv_item;
  can_send : chan Z;
  can_recv : chan Z
}.

Definition socket_interval_seconds : Z := 5.

(** [CreateTransportTls] without the certificate loading. *)
Definition CreateTransportTls (cfg : NetworkConfig) (re : string -> option (string * string))
    : TransportTls :=
  mkTransportTls cfg None re [] 0 ChanNil ChanNil ChanNil ChanNil ChanNil.

(** *** Connect *)

(** What one pass of the inner loop of [Connect] finds outside the program:
    the two random numbers, the resolver, the dial and the handshake. *)
Record attempt := mkAttempt {
  rand_server : nat;
  LookupHost : string -> option (list string);
  rand_address : nat;
  DialTimeout : string -> bool;
  Handshake : bool
}.

Fixpoint has_colon (s : string) : bool :=
  match s with
  | EmptyString => false
  | String c s' => if Ascii.eqb c (Ascii.ascii_of_nat 58) then true else has_colon s'
  end.

(** [net.JoinHostPort] *)
Definition JoinHostPort (host port : string) : string :=
  if has_colon host then "[" +:+ host +:+ "]:" +:+ port else host +:+ ":" +:+ port.

Inductive attempt_result :=
| Established (c : Conn)
| Retry
| AttemptPanic (msg : string).

(** One pass of the inner [for] of [Connect], up to [break Connect] or a
    [break] into the sleep. *)
Definition Connect_attempt (t : TransportTls) (a : attempt) : attempt_result :=
  match Servers (config t) with
  | [] => AttemptPanic "integer divide by zero"
  | s0 :: _ =>
      let hostport := nth (rand_server a mod length (Servers (config t))) (Servers (config t)) s0 in
      match hostport_re t hostport with
      | None => Retry
      | Some (host, port) =>
          match LookupHost a host with
          | None => Retry
          | Some [] => AttemptPanic "integer divide by zero"
          | Some (a0 :: addrs) =>
              let address := nth (rand_address a mod length (a0 :: addrs)) (a0 :: addrs) a0 in
              let addressport := JoinHostPort address port in
              if DialTimeout a addressport then
                if Handshake a then Established (mkConn addressport false)
                else Retry
              else Retry
          end
      end
  end.

(** The [Connect:] loop: attempts, with a sleep of [reconnect] after each
    failed one, until one succeeds. [Blocked] when none of the attempts
    described by the script succeeds. *)
Fixpoint Connect_loop (t : TransportTls) (script : list attempt)
    : result (Conn * list attempt) :=
  match script with
  | [] => Blocked
  | a :: script' =>
      match Connect_attempt t a with
      | Established c => Ok (c, script')
      | Retry => Connect_loop t script'
      | AttemptPanic msg => Panic msg
      end
  end.

(** [func (t *TransportTls) Connect() error]. The two goroutines it starts
    are counted in [wait]. *)
Definition Connect (t : TransportTls) (script : list attempt)
    : result (TransportTls * list attempt) :=
  match Connect_loop t script with
  | Panic msg => Panic msg
  | Blocked => Blocked
  | Ok (c, script') =>
      match chan_send (make_chan 1) 1 with
      | Ok cs =>
          Ok (mkTransportTls (config t) (Some c) (hostport_re t) []
                (wait t + 2)
                (make_chan 1) (make_chan 1) (make_chan 1) cs (make_chan 1),
              script')
      | Panic msg => Panic msg
      | Blocked => Blocked
      end
  end.

(** [func (t *TransportTls) Write(p []byte)] *)
Definition Write (t : TransportTls) (p : list byte) : TransportTls * nat :=
  (mkTransportTls (config t) (socket t) (hostport_re t) (write_buffer t ++ p) (wait t)
     (shutdown t) (send_chan t) (recv_chan t) (can_send t) (can_recv t),
   length p).

(** [func (t *TransportTls) Flush() error] *)
Definition Flush (t : TransportTls) : result TransportTls :=
  match chan_send (send_chan t) (write_buffer t) with
  | Ok sc =>
      Ok (mkTransportTls (config t) (socket t) (hostport_re t) [] (wait t)
            (shutdown t) sc (recv_chan t) (can_send t) (can_recv t))
  | Panic msg => Panic msg
  | Blocked => Blocked
  end.

(** [func (t *TransportTls) Read() ([]byte, error)] *)
Definition Read (t : TransportTls) : result (recv_item * TransportTls) :=
  match chan_recv (recv_chan t) with
  | Ok (msg, rc) =>
      Ok (msg,
          mkTransportTls (config t) (socket t) (hostport_re t) (write_buffer t) (wait t)
            (shutdown t) (send_chan t) rc (can_send t) (can_recv t))
  | Panic msg => Panic msg
  | Blocked => Blocked
  end.

(** [func (t *TransportTls) Disconnect()]: [close(t.shutdown)], then
    [t.wait.Wait()] returns once the sender and the receiver have seen the
    closed channel and called [Done], then the socket is closed and the
    buffer reset. *)
Definition Disconnect (t : TransportTls) : result TransportTls :=
  match close_chan (shutdown t) with
  | Panic msg => Panic msg
  | Blocked => Blocked
  | Ok sd =>
      match socket t with
      | None => Panic "invalid memory address or nil pointer dereference"
      | Some c =>
          Ok (mkTransportTls (config t) (Some (mkConn (remote c) true)) (hostport_re t) [] 0
                sd (send_chan t) (recv_chan t) (can_send t) (can_recv t))
      end
  end.


(** *** The receiver goroutine *)

Definition byteZ (b : byte) : Z := Z.of_N (Byte.to_N b).

(** [binary.BigEndian.Uint32] *)
Definition Uint32 (b : list byte) : Z :=
  match b with
  | b0 :: b1 :: b2 :: b3 :: _ =>
      Z.lor (Z.lor (Z.lor (Z.shiftl (byteZ b0) 24) (Z.shiftl (byteZ b1) 16))
                   (Z.shiftl (byteZ b2) 8))
            (byteZ b3)
  | _ => 0
  end.

(** [make([]byte, n)] *)
Definition make_bytes (n : nat) : list byte := replicate n Byte.x00.

(** [copy(dst, src)]: the first [min (len dst) (len src)] bytes. *)
Definition copy (dst src : list byte) : list byte :=
  take (length dst) src ++ drop (length src) dst.

(** Writing [bs] into [data] from index [off] on, as [Read(data[off:])] does
    with the bytes it returns. *)
Definition copy_at (data : list byte) (off : nat) (bs : list byte) : list byte :=
  take off data ++ bs ++ drop (off + length bs) data.

(** What the socket and the rest of the program do while a goroutine reads:
    [SockShutdown] is the moment [t.shutdown] is found closed, [SockRead bs err]
    is a return of [t.socket.Read] with the bytes [bs] available and the error
    [err]. A read into a buffer shorter than [bs] takes what fits and leaves
    the rest for the next read. *)
Inductive sock_event :=
| SockShutdown
| SockRead (bs : list byte) (err : option error).

Inductive read_outcome :=
| ReadDone (data : list byte) (err : option error) (shutdown : bool) (rest : list sock_event)
| ReadBlocked.

(** [func (t *TransportTls) receiverRead(data []byte) (error, bool)];
    [data] is the buffer, returned as the reads have filled it. A [Read] into
    an empty buffer returns [0, nil] at once. *)
Fixpoint receiverRead_from (script : list sock_event) (data : list byte) (received : nat)
    : read_outcome :=
  match script with
  | SockShutdown :: _ => ReadDone data None true script
  | [] =>
      if (length data - received =? 0)%nat then ReadDone data None false []
      else ReadBlocked
  | SockRead bs err :: rest =>
      let room := (length data - received)%nat in
      if (room =? 0)%nat then ReadDone data None false script
      else if (room <? length bs)%nat then
        ReadDone (copy_at data received (take room bs)) None false
                 (SockRead (drop room bs) err :: rest)
      else
        let data' := copy_at data received bs in
        let received' := (received + length bs)%nat in
        match err with
        | None => ReadDone data' None false rest
        | Some e =>
            if (length data <=? received')%nat then ReadDone data' None false rest
            else if Timeout e then receiverRead_from rest data' received'
            else ReadDone data' (Some e) false rest
        end
  end.

Definition receiverRead (script : list sock_event) (data : list byte) : read_outcome :=
  receiverRead_from script data 0.

(** What a goroutine of the transport does to the channels, in order.
    A send on [recv_chan] waits for the reader of the transport to take the
    previous value; the trace lists the sends as they complete. *)
Inductive out :=
| OutRecv (item : recv_item)     (* [t.recv_chan <- item] *)
| OutCanRecv                     (* [t.setChan(t.can_recv)] *)
| OutCanSend.                    (* [t.setChan(t.can_send)] *)

Inductive task_end :=
| TaskDone                       (* reached [t.wait.Done()] *)
| TaskBlocked                    (* waits for an event the script does not have *)
| TaskPanic (msg : string)
| TaskOutOfFuel.

(** The tail of [receiver]: [if err != nil { t.recv_chan <- err; ... }]. *)
Definition receiver_exit (err : option error) : list out :=
  match err with
  | Some e => [OutRecv (RecvErr e); OutCanRecv]
  | None => []
  end.

Definition too_large (length : Z) : error :=
  errors_New ("Received message too large (" +:+ pretty length +:+ ")").

(** The [for] loop of [receiver], [header] being the 8-byte buffer that is
    made once and reused. [8 + length] is a [uint32] sum. *)
Fixpoint receiver_loop (fuel : nat) (script : list sock_event) (header : list byte)
    : list out * task_end :=
  match fuel with
  | O => ([], TaskOutOfFuel)
  | S fuel' =>
      match receiverRead script header with
      | ReadBlocked => ([], TaskBlocked)
      | ReadDone header1 (Some e) _ _ => (receiver_exit (Some e), TaskDone)
      | ReadDone header1 None true _ => ([], TaskDone)
      | ReadDone header1 None false rest =>
          let length := Uint32 (take 4 (drop 4 header1)) in
          let sanity :=
            if 1048576 <? length then [OutRecv (RecvErr (too_large length))] else [] in
          let message := copy (make_bytes (Z.to_nat ((8 + length) mod 2 ^ 32))) header1 in
          if (List.length message <? 8)%nat then
            (sanity, TaskPanic "slice bounds out of range")
          else
            match receiverRead rest (drop 8 message) with
            | ReadBlocked => (sanity, TaskBlocked)
            | ReadDone payload (Some e) _ _ => (sanity ++ receiver_exit (Some e), TaskDone)
            | ReadDone payload None true _ => (sanity, TaskDone)
            | ReadDone payload None false rest' =>
                let '(outs, fin) := receiver_loop fuel' rest' header1 in
                (sanity ++ [OutRecv (RecvMsg (take 8 message ++ payload)); OutCanRecv] ++ outs,
                 fin)
            end
      end
  end.

(** Every pass of the loop uses up an event of the script or at least one of
    its bytes, so this many passes are enough. *)
Definition script_size (script : list sock_event) : nat :=
  fold_right (fun ev n =>
                match ev with
                | SockShutdown => S n
                | SockRead bs _ => S (length bs + n)
                end) 0%nat script.

(** [func (t *TransportTls) receiver()] *)
Definition receiver (script : list sock_event) : list out * task_end :=
  receiver_loop (S (script_size script)) script (make_bytes 8).

(** *** The sender goroutine and the write wrapper *)

(** What the TCP socket and the rest of the program do while the wrapper
    writes: [WShutdown] is the moment [t.shutdown] is closed, [WWrite n err] a
    return of [w.tcpsocket.Write] with [n] bytes written and the error
    [err]. *)
Inductive write_event :=
| WShutdown
| WWrite (n : nat) (err : option error).

(** [deadlines]: the argument of every [SetWriteDeadline(time.Now().Add(..))],
    in seconds from the moment of the call. [shut]: whether [t.shutdown] is
    closed by now. *)
Inductive write_outcome :=
| WriteDone (n : nat) (err : option error) (deadlines : list Z) (shut : bool)
            (rest : list write_event)
| WriteBlocked (deadlines : list Z).

(** [func (w *TransportTlsWrap) Write(b []byte) (n int, err error)] from
    [RetrySend:] on, with [length] bytes written so far. *)
Fixpoint Wrap_Write_from (script : list write_event) (b : list byte) (length : nat)
    (deadlines : list Z) (shut : bool) : write_outcome :=
  match script with
  | [] => WriteBlocked (deadlines ++ [socket_interval_seconds])
  | WShutdown :: rest => Wrap_Write_from rest b length deadlines true
  | WWrite n err :: rest =>
      let deadlines' := deadlines ++ [socket_interval_seconds] in
      let length' := (length + n)%nat in
      match err with
      | None => WriteDone length' None deadlines' shut rest
      | Some e =>
          if Timeout e then
            if shut then WriteDone length' (Some e) deadlines' shut rest
            else Wrap_Write_from rest b length' deadlines' shut
          else WriteDone length' (Some e) deadlines' shut rest
      end
  end.

Definition Wrap_Write (script : list write_event) (b : list byte) (shut : bool)
    : write_outcome :=
  Wrap_Write_from script b 0 [] shut.

(** What [select] in [sender] finds ready. *)
Inductive select_event :=
| SelShutdown
| SelMsg (msg : list byte).

(** [func (t *TransportTls) sender()]: [t.socket.Write(msg)] goes through the
    TLS layer into the wrapper, which gets the bytes of [msg] as one write. *)
Fixpoint sender_from (inbox : list select_event) (sock : list write_event) (shut : bool)
    : list out * task_end :=
  match inbox with
  | [] => ([], TaskBlocked)
  | SelShutdown :: _ => ([], TaskDone)
  | SelMsg msg :: inbox' =>
      match Wrap_Write sock msg shut with
      | WriteBlocked _ => ([], TaskBlocked)
      | WriteDone _ None _ shut' sock' =>
          let '(outs, fin) := sender_from inbox' sock' shut' in
          (OutCanSend :: outs, fin)
      | WriteDone _ (Some e) _ shut' sock' =>
          if Timeout e then ([], TaskDone)
          else
            let '(outs, fin) := sender_from inbox' sock' shut' in
            (OutRecv (RecvErr e) :: OutCanRecv :: outs, fin)
      end
  end.

Definition sender (inbox : list select_event) (sock : list write_event)
    : list out * task_end :=
  sender_from inbox sock false.

(** *** Observations on a run of the write wrapper *)



(** *** Sample inputs *)

Definition sample_config : NetworkConfig :=
  mkNetworkConfig ["logs.example.com:5043"] 15 1.

Definition sample_re (hostport : string) : option (string * string) :=
  if String.eqb hostport "logs.example.com:5043"
  then Some ("logs.example.com", "5043") else None.

Definition resolver_down : attempt :=
  mkAttempt 4 (fun _ => None) 0 (fun _ => true) true.

Definition attempt_ok : attempt :=
  mkAttempt 7 (fun _ => Some ["192.0.2.10"]) 3 (fun _ => true) true.

Definition new_transport : TransportTls := CreateTransportTls sample_config sample_re.

(** The transport right after [Connect] has returned. *)
Definition connected_transport : TransportTls :=
  mkTransportTls sample_config (Some (mkConn "192.0.2.10:5043" false)) sample_re [] 2
    (make_chan 1) (make_chan 1) (make_chan 1) (Chan 1 [1] false) (make_chan 1).


(** The tag [ACKN] and the length field [0x00100001] = 1048577. *)
Definition oversized_header : list byte :=
  [Byte.x41; Byte.x43; Byte.x4b; Byte.x4e; Byte.x00; Byte.x10; Byte.x00; Byte.x01].

Definition oversized_payload : list byte := replicate (Z.to_nat 1048577) Byte.x2a.

Definition io_timeout : error := NetError true "i/o timeout".


End Transport.

(* ===================================================================== *)
(** ** The log-courier binary *)
(* ===================================================================== *)

Module LogCourier.

Abbreviation error := Transport.error.

(** [*config.Config] as far as the binary reads it. *)
Record Config := mkConfig {
  Files : nat;                 (* [len(lc.config.Files)] *)
  LogLevel : Z;
  LogStdout : bool;
  LogFile : string;
  ListenAddress : string;
  TelemetryPath : string;
  AdminEnabled : bool;
  PersistDir : string
}.

(** [config.NewConfig()]: an empty configuration. *)
Definition NewConfig : Config := mkConfig 0 0 false "" "" "" false "".

(** The root structure. [config] is a pointer into [heap]; [workers_config] is
    the configuration object the pipeline's components hold: the one they
    were built with, then the last one [SendConfig] gave them. [log_level] is
    the level set in the logging package, [reopened] counts
    [lc.logFile.Reopen()]. *)
Record logCourier := mkLogCourier {
  config : option positive;
  heap : gmap positive Config;
  next : positive;
  configFile : string;
  stdin : bool;
  fromBeginning : bool;
  logFile : option string;
  reopened : nat;
  log_level : Z;
  metricsServer : option string;
  workers_config : option positive;
  profiling : bool
}.

Definition newLogCourier : logCourier :=
  mkLogCourier None ∅ 1%positive "" false false None 0 0 None None false.

(** What [lc.config.Load(lc.configFile, true)] does to a new configuration
    object: the fields it leaves in it and its error. *)
Definition load_outcome : Type := Config * option error.

(** [func (lc *logCourier) loadConfig() error] *)
Definition loadConfig (lc : logCourier) (ld : load_outcome) : logCourier * option error :=
  let p := next lc in
  (* lc.config = config.NewConfig() *)
  let heap1 := <[p := NewConfig]> (heap lc) in
  (* lc.config.Load(lc.configFile, true) *)
  let heap2 := <[p := fst ld]> heap1 in
  (mkLogCourier (Some p) heap2 (Pos.succ p) (configFile lc) (stdin lc) (fromBeginning lc)
     (logFile lc) (reopened lc) (log_level lc) (metricsServer lc) (workers_config lc)
     (profiling lc),
   snd ld).

(** The configuration [lc.config] points at. *)
Definition current (lc : logCourier) : Config :=
  match config lc with
  | Some p => default NewConfig (heap lc !! p)
  | None => NewConfig
  end.

(** [func (lc *logCourier) startListener() error]; [shutdown_err] is what
    [lc.metricsServer.Shutdown] returns when there is a server. *)
Definition startListener (lc : logCourier) (shutdown_err : option error)
    : logCourier * option error :=
  match metricsServer lc, shutdown_err with
  | Some _, Some e => (lc, Some e)
  | _, _ =>
      if String.eqb (ListenAddress (current lc)) "" then (lc, None)
      else
        (mkLogCourier (config lc) (heap lc) (next lc) (configFile lc) (stdin lc)
           (fromBeginning lc) (logFile lc) (reopened lc) (log_level lc)
           (Some (ListenAddress (current lc))) (workers_config lc) (profiling lc),
         None)
  end.

(** [func (lc *logCourier) reloadConfig() error] *)
Definition reloadConfig (lc : logCourier) (ld : load_outcome) (shutdown_err : option error)
    : logCourier * option error :=
  match loadConfig lc ld with
  | (lc1, Some err) => (lc1, Some err)
  | (lc1, None) =>
      (* logging.SetLevel(lc.config.General.LogLevel, "") *)
      let level := LogLevel (current lc1) in
      (* lc.logFile.Reopen() *)
      let reopened1 := match logFile lc1 with
                       | Some _ => S (reopened lc1)
                       | None => reopened lc1
                       end in
      let lc2 := mkLogCourier (config lc1) (heap lc1) (next lc1) (configFile lc1) (stdin lc1)
                   (fromBeginning lc1) (logFile lc1) reopened1 level (metricsServer lc1)
                   (workers_config lc1) (profiling lc1) in
      (* the error of startListener is logged, not returned *)
      let lc3 := fst (startListener lc2 shutdown_err) in
      (* lc.pipeline.SendConfig(lc.config) *)
      (mkLogCourier (config lc3) (heap lc3) (next lc3) (configFile lc3) (stdin lc3)
         (fromBeginning lc3) (logFile lc3) (reopened lc3) (log_level lc3) (metricsServer lc3)
         (config lc3) (profiling lc3),
       None)
  end.

(** The command line, as [flag.Parse] leaves it. *)
Record Flags := mkFlags {
  f_version : bool;
  f_configTest : bool;
  f_listSupported : bool;
  f_cpuProfile : string;
  f_config : string;
  f_stdin : bool;
  f_fromBeginning : bool
}.

(** What the start of the process finds outside the program. *)
Record StartEnv := mkStartEnv {
  e_load : load_outcome;                 (* [lc.config.Load] *)
  e_logBackend : option error;           (* [NewDefaultLogBackend] *)
  e_logPlatform : option error;          (* [configureLoggingPlatform] *)
  e_createProfile : option error;        (* [os.Create(cpuProfile)] *)
  e_adminServer : option error;          (* [admin.NewServer] *)
  e_registerPublisher : bool;            (* [prometheus.MustRegister] does not panic *)
  e_prospector : option error;           (* [prospector.NewProspector] *)
  e_registerProspector : bool
}.

(** A step either goes on or ends the process with an exit status:
    [os.Exit(n)] ends it with [n]; [log.Fatal] and [log.Fatalf] of go-logging
    log and call [os.Exit(1)]; a panic nobody recovers ends a Go program with
    status 2; a return from [main] with status 0. *)
Inductive step (A : Type) :=
| Continue (a : A)
| Exit (code : Z).
Arguments Continue {A} a.
Arguments Exit {A} code.

Definition os_Exit {A : Type} (code : Z) : step A := Exit code.
Definition log_Fatal {A : Type} : step A := Exit 1.
Definition panic {A : Type} : step A := Exit 2.

(** [func (lc *logCourier) configureLogging() (err error)] *)
Definition configureLogging (lc : logCourier) (env : StartEnv) : logCourier * option error :=
  if String.eqb (LogFile (current lc)) "" then
    match e_logPlatform env with
    | Some e => (lc, Some e)
    | None =>
        (mkLogCourier (config lc) (heap lc) (next lc) (configFile lc) (stdin lc)
           (fromBeginning lc) (logFile lc) (reopened lc) (LogLevel (current lc))
           (metricsServer lc) (workers_config lc) (profiling lc), None)
    end
  else
    match e_logBackend env with
    | Some e => (lc, Some e)
    | None =>
        let lc1 := mkLogCourier (config lc) (heap lc) (next lc) (configFile lc) (stdin lc)
                     (fromBeginning lc) (Some (LogFile (current lc))) (reopened lc)
                     (log_level lc) (metricsServer lc) (workers_config lc) (profiling lc) in
        match e_logPlatform env with
        | Some e => (lc1, Some e)
        | None =>
            (mkLogCourier (config lc1) (heap lc1) (next lc1) (configFile lc1) (stdin lc1)
               (fromBeginning lc1) (logFile lc1) (reopened lc1) (LogLevel (current lc1))
               (metricsServer lc1) (workers_config lc1) (profiling lc1), None)
        end
    end.

(** [func (lc *logCourier) startUp()] *)
Definition startUp (lc : logCourier) (fl : Flags) (env : StartEnv) : step logCourier :=
  let lc0 := mkLogCourier (config lc) (heap lc) (next lc) (f_config fl) (f_stdin fl)
               (f_fromBeginning fl) (logFile lc) (reopened lc) (log_level lc)
               (metricsServer lc) (workers_config lc) (profiling lc) in
  if f_version fl then os_Exit 0
  else if f_listSupported fl then os_Exit 0
  else if String.eqb (configFile lc0) "" then os_Exit 1
  else
    let '(lc1, err) := loadConfig lc0 (e_load env) in
    if f_configTest fl then
      match err with
      | None => os_Exit 0
      | Some _ => os_Exit 1
      end
    else
      match err with
      | Some _ => os_Exit 1
      | None =>
          match configureLogging lc1 env with
          | (_, Some _) => os_Exit 1
          | (lc2, None) =>
              let profile : step logCourier :=
                if String.eqb (f_cpuProfile fl) "" then Continue lc2
                else
                  match e_createProfile env with
                  | Some _ => log_Fatal
                  | None =>
                      Continue
                        (mkLogCourier (config lc2) (heap lc2) (next lc2) (configFile lc2)
                           (stdin lc2) (fromBeginning lc2) (logFile lc2) (reopened lc2)
                           (log_level lc2) (metricsServer lc2) (workers_config lc2) true)
                  end in
              match profile with
              | Exit c => Exit c
              | Continue lc3 =>
                  match startListener lc3 None with
                  | (_, Some _) => os_Exit 1
                  | (lc4, None) => Continue lc4
                  end
              end
          end
      end.

(** What the running process receives: the two signals, the end of the
    stdin harvester, and what the two goroutines started in [startUp] and
    [startListener] can do to the process. *)
Inductive run_event :=
| SigShutdown
| SigReload (ld : load_outcome) (shutdown_err : option error)
| HarvesterFinished
| ProfileTimer              (* [log.Panic("CPU profile completed")] after 60 s *)
| ListenerFailed.           (* [log.Fatal] after [ListenAndServe] failed *)

Inductive run_result :=
| Exited (code : Z)
| Running (lc : logCourier).

(** The [SignalLoop:] of [Run]. [harvesterWait] is a nil channel unless the
    agent reads stdin, and the two goroutines exist only if they were
    started. *)
Fixpoint SignalLoop (lc : logCourier) (events : list run_event) : run_result :=
  match events with
  | [] => Running lc
  | SigShutdown :: _ => Exited 0
  | SigReload ld serr :: events' => SignalLoop (fst (reloadConfig lc ld serr)) events'
  | HarvesterFinished :: events' =>
      if stdin lc then Exited 0 else SignalLoop lc events'
  | ProfileTimer :: events' =>
      if profiling lc then Exited 2 else SignalLoop lc events'
  | ListenerFailed :: events' =>
      match metricsServer lc with
      | Some _ => Exited 1
      | None => SignalLoop lc events'
      end
  end.

(** The part of [Run] that builds the pipeline. *)
Definition buildPipeline (lc : logCourier) (env : StartEnv) : step logCourier :=
  let admin : step unit :=
    if stdin lc then Continue tt
    else if AdminEnabled (current lc) then
      match e_adminServer env with
      | Some _ => log_Fatal
      | None => Continue tt
      end
    else Continue tt in
  match admin with
  | Exit c => Exit c
  | Continue _ =>
      (* publisher.NewPublisher(lc.pipeline, lc.config, registrarImp) *)
      let lc1 := mkLogCourier (config lc) (heap lc) (next lc) (configFile lc) (stdin lc)
                   (fromBeginning lc) (logFile lc) (reopened lc) (log_level lc)
                   (metricsServer lc) (config lc) (profiling lc) in
      if e_registerPublisher env then
        if stdin lc1 then Continue lc1
        else
          match e_prospector env with
          | Some _ => log_Fatal
          | None => if e_registerProspector env then Continue lc1 else panic
          end
      else panic
  end.

(** [func (lc *logCourier) Run()] followed by the return from [main]. *)
Definition Run (fl : Flags) (env : StartEnv) (events : list run_event) : run_result :=
  match startUp newLogCourier fl env with
  | Exit c => Exited c
  | Continue lc =>
      match buildPipeline lc env with
      | Exit c => Exited c
      | Continue lc1 => SignalLoop lc1 events
      end
  end.

(** *** Sample inputs *)


Definition good_config : Config :=
  mkConfig 1 4 true "" "" "/metrics" false "/var/lib/log-courier".


(** The same environment, but [prospector.NewProspector] returns an error. *)
Definition prospector_fails : StartEnv :=
  mkStartEnv (good_config, None) None None None None true
    (Some (Transport.PlainError "no such file or directory")) true.

(** The agent once it runs on [good_config], which is object 1. *)
Definition running_agent : logCourier :=
  mkLogCourier (Some 1%positive) {[ 1%positive := good_config ]} 2%positive
    "/etc/log-courier/log-courier.conf" false false None 0 4 None (Some 1%positive) false.

(** A reload that finds a file it cannot parse. *)
Definition broken_load : load_outcome :=
  (NewConfig, Some (Transport.PlainError "invalid character '}'")).

End LogCourier.

(* ===================================================================== *)
(** ** Registrar: the channel and its reference count *)
(* ===================================================================== *)

Module RegistrarChannel.
Import Registrar.

(** [r.registrar_chan], made with [make(chan []RegistrarEvent, 16)]. *)
Definition new_registrar_chan : Transport.chan (list RegistrarEvent) :=
  Transport.make_chan 16.

(** [func (r *Registrar) Connect() chan<- []RegistrarEvent] *)
Definition Connect (r : Registrar) : Registrar :=
  mkRegistrar (references r + 1) (persistdir r) (statefile r) (state r).

(** [func (r *Registrar) Disconnect()] *)
Definition Disconnect (r : Registrar) (c : Transport.chan (list RegistrarEvent))
    : Transport.result (Registrar * Transport.chan (list RegistrarEvent)) :=
  let r1 := mkRegistrar (references r - 1) (persistdir r) (statefile r) (state r) in
  if references r1 =? 0 then
    match Transport.close_chan c with
    | Transport.Ok c1 => Transport.Ok (r1, c1)
    | Transport.Panic msg => Transport.Panic msg
    | Transport.Blocked => Transport.Blocked
    end
  else Transport.Ok (r1, c).

(** [n] calls of [Connect]. *)
Fixpoint Connect_times (n : nat) (r : Registrar) : Registrar :=
  match n with
  | O => r
  | S n' => Connect (Connect_times n' r)
  end.

(** [n] calls of [Disconnect], stopping at the first that does not return. *)
Fixpoint Disconnect_times (n : nat) (r : Registrar) (c : Transport.chan (list RegistrarEvent))
    : Transport.result (Registrar * Transport.chan (list RegistrarEvent)) :=
  match n with
  | O => Transport.Ok (r, c)
  | S n' =>
      match Disconnect r c with
      | Transport.Ok (r1, c1) => Disconnect_times n' r1 c1
      | other => other
      end
  end.

(** The offset the last entry for [p] in [evs] carries, if there is one. *)
Definition last_offset (p : positive) (evs : list FileEvent) : option Z :=
  last (offsets_of_event p (EventsEvent evs)).

(** Whether an event adds or removes the entry of [p]. *)
Definition adds_or_removes (p : positive) (e : RegistrarEvent) : bool :=
  match e with
  | NewFileEvent q _ _ _ => bool_decide (q = p)
  | DeletedEvent q => bool_decide (q = p)
  | _ => false
  end.

(** No two tracked files carry the same path. *)
Definition distinct_sources (st : gmap positive FileState) : Prop :=
  ∀ p q f g, st !! p = Some f → st !! q = Some g → Source f = Source g → p = q.

(** Every entry of a document is filed under its own stored path, as in the
    documents [Register] writes. *)
Definition filed_by_source (doc : gmap string FileState) : Prop :=
  ∀ path fs, doc !! path = Some fs → Source fs = path.

(** *** Sample states *)

Definition two_files : gmap positive FileState :=
  <[ 2%positive := mkFileState "/var/log/b.log" 700 (mkFileIdentity 2049 78) ]>
    (tracked_at 10).

Definition two_files_doc : gmap string FileState :=
  <[ "/var/log/b.log" := mkFileState "/var/log/b.log" 700 (mkFileIdentity 2049 78) ]>
    {[ "/var/log/a.log" := mkFileState "/var/log/a.log" 10 (mkFileIdentity 2049 77) ]}.

(** A persist directory whose state file decodes to [two_files_doc]. *)
Definition state_file_present (path : string) : option (gmap string FileState) :=
  if String.eqb path "/var/lib/log-courier/.log-courier" then Some two_files_doc else None.

End RegistrarChannel.

(* ===================================================================== *)
(** ** Transport: streams of frames *)
(* ===================================================================== *)

Module Frames.
Import Transport.

(** A frame as it travels: the 8 header bytes and the payload. *)
Definition frame : Type := list byte * list byte.

(** The header announces the payload, which is not empty and within the
    limit the receiver checks. *)
Definition well_formed (fr : frame) : Prop :=
  length (fst fr) = 8%nat
  ∧ Uint32 (take 4 (drop 4 (fst fr))) = Z.of_nat (length (snd fr))
  ∧ (0 < length (snd fr))%nat
  ∧ Z.of_nat (length (snd fr)) <= 1048576.

(** A socket that hands over each header and each payload in one read. *)
Definition frame_reads (frames : list frame) : list sock_event :=
  flat_map (fun fr => [SockRead (fst fr) None; SockRead (snd fr) None]) frames.

(** What the reader of the transport is given for these frames. *)
Definition frame_outs (frames : list frame) : list out :=
  flat_map (fun fr => [OutRecv (RecvMsg (fst fr ++ snd fr)); OutCanRecv]) frames.

(** A socket that takes every message whole at the first attempt. *)
Definition whole_writes (msgs : list (list byte)) : list write_event :=
  map (fun msg => WWrite (length msg) None) msgs.

(** [n] calls of [setChan] on the same channel. *)
Fixpoint setChan_times (n : nat) (c : chan Z) : result (chan Z) :=
  match n with
  | O => Ok c
  | S n' =>
      match setChan c with
      | Ok c1 => setChan_times n' c1
      | other => other
      end
  end.

(** [Write] called with each of [ps] in turn. *)
Definition Write_all (t : TransportTls) (ps : list (list byte)) : TransportTls :=
  fold_left (fun t p => fst (Write t p)) ps t.

(** *** Sample inputs *)

(** An [ACKN] frame: tag, length 20, a 16-byte nonce and a sequence number. *)
Definition ackn_frame (seq : byte) : frame :=
  ([Byte.x41; Byte.x43; Byte.x4b; Byte.x4e; Byte.x00; Byte.x00; Byte.x00; Byte.x14],
   replicate 16 Byte.xa7 ++ [Byte.x00; Byte.x00; Byte.x00; seq]).

(** A header whose length field is [0xfffffffc]. *)
Definition wrapping_header : list byte :=
  [Byte.x41; Byte.x43; Byte.x4b; Byte.x4e; Byte.xff; Byte.xff; Byte.xff; Byte.xfc].

End Frames.

(* ===================================================================== *)
(** ** Metrics collectors *)
(* ===================================================================== *)

Module Metrics.

(** The three descriptors of the two [metrics.go] files, by fully qualified
    name. *)
Inductive Desc :=
| filesOpenDesc            (* log_courier_files_open *)
| linesPublishedDesc       (* log_courier_lines_published_total *)
| payloadsPendingDesc.     (* log_courier_payloads_pending *)

Inductive ValueType := CounterValue | GaugeValue.

(** [prometheus.MustNewConstMetric(desc, valueType, float64(n))]; the value
    is kept as the integer that is converted. *)
Record Metric := mkMetric { m_desc : Desc; m_type : ValueType; m_value : Z }.

(** An entry of [p.prospectorindex], as far as [Collect] reads it: the
    harvester of the file, nil when none runs. *)
Record prospectorInfo := mkProspectorInfo { harvester : option positive }.

(** [func (p *Prospector) Describe] *)
Definition Prospector_Describe : list Desc := [filesOpenDesc].

(** The loop of [func (p *Prospector) Collect], over the entries in the
    order the [range] visits them. *)
Definition count_open (visit : list (positive * prospectorInfo)) : Z :=
  fold_left (fun filesOpen kv =>
               match harvester (snd kv) with
               | Some _ => filesOpen + 1
               | None => filesOpen
               end) visit 0.

(** [func (p *Prospector) Collect] *)
Definition Prospector_Collect (visit : list (positive * prospectorInfo)) : list Metric :=
  [mkMetric filesOpenDesc GaugeValue (count_open visit)].

(** The two fields of the publisher that its collector reads. *)
Record Publisher := mkPublisher { lineCount : Z; numPayloads : Z }.

(** [func (p *Publisher) Describe] *)
Definition Publisher_Describe : list Desc := [linesPublishedDesc; payloadsPendingDesc].

(** [func (p *Publisher) Collect] *)
Definition Publisher_Collect (p : Publisher) : list Metric :=
  [mkMetric linesPublishedDesc CounterValue (lineCount p);
   mkMetric payloadsPendingDesc GaugeValue (numPayloads p)].

(** The files of the index that have a harvester. *)
Definition open_files (index : gmap positive prospectorInfo) : gmap positive prospectorInfo :=
  filter (fun kv => is_Some (harvester (snd kv))) index.

(** *** Sample index: two files, one of them being read. *)
Definition sample_index : gmap positive prospectorInfo :=
  <[ 2%positive := mkProspectorInfo None ]> {[ 1%positive := mkProspectorInfo (Some 9%positive) ]}.

End Metrics.

(* ===================================================================== *)
(** ** Properties of the registrar *)
(* ===================================================================== *)

Module RegistrarFacts.
Import Registrar.

(** *** Event handlers *)

Lemma step_lookup_other (st : gmap positive FileState) (ev : FileEvent) (p : positive) :
  ev_ProspectorInfo ev ≠ p → EventsEvent_step st ev !! p = st !! p.
Proof.
  intros Hne. unfold EventsEvent_step.
  destruct (st !! ev_ProspectorInfo ev); [|done].
  by rewrite lookup_insert_ne.
Qed.

Lemma step_absent (st : gmap positive FileState) (ev : FileEvent) :
  st !! ev_ProspectorInfo ev = None → EventsEvent_step st ev = st.
Proof. intros H. unfold EventsEvent_step. by rewrite H. Qed.

Lemma step_keeps_absent (st : gmap positive FileState) (ev : FileEvent) (p : positive) :
  st !! p = None → EventsEvent_step st ev !! p = None.
Proof.
  intros H. destruct (decide (ev_ProspectorInfo ev = p)) as [<-|Hne].
  - by rewrite step_absent.
  - by rewrite step_lookup_other.
Qed.

Lemma events_keep_absent (evs : list FileEvent) (st : gmap positive FileState) (p : positive) :
  st !! p = None → EventsEvent_Process evs st !! p = None.
Proof.
  revert st. induction evs as [|ev evs IH]; intros st H; [done|].
  cbn. apply IH. by apply step_keeps_absent.
Qed.

Lemma events_filter_absent (evs : list FileEvent) (st : gmap positive FileState) (p : positive) :
  st !! p = None →
  EventsEvent_Process evs st
  = EventsEvent_Process (filter (fun ev => ev_ProspectorInfo ev ≠ p) evs) st.
Proof.
  revert st. induction evs as [|ev evs IH]; intros st H; [done|].
  destruct (decide (ev_ProspectorInfo ev = p)) as [Heq|Hne].
  - rewrite filter_cons_False by (intros ?; contradiction).
    cbn. rewrite step_absent by (by rewrite Heq). by apply IH.
  - rewrite filter_cons_True by done.
    cbn. apply IH. by apply step_keeps_absent.
Qed.

(** *** Which offsets can end up stored *)

Lemma stored_offset_step (st : gmap positive FileState) (ev : FileEvent) (p : positive) (o : Z) :
  o ∈ stored_offset (EventsEvent_step st ev) p →
  o ∈ stored_offset st p ∨ (ev_ProspectorInfo ev = p ∧ o = ev_Offset ev).
Proof.
  unfold stored_offset. destruct (decide (ev_ProspectorInfo ev = p)) as [Heq|Hne].
  - unfold EventsEvent_step. rewrite Heq.
    destruct (st !! p) as [fs|] eqn:Hp; [|rewrite Hp; by left].
    rewrite lookup_insert_eq. cbn. intros ->%list_elem_of_singleton. by right.
  - rewrite step_lookup_other by done. by left.
Qed.

Lemma stored_offset_events (evs : list FileEvent) (st : gmap positive FileState)
    (p : positive) (o : Z) :
  o ∈ stored_offset (EventsEvent_Process evs st) p →
  o ∈ stored_offset st p ∨ o ∈ offsets_of_event p (EventsEvent evs).
Proof.
  revert st. induction evs as [|ev evs IH]; intros st H; [by left|].
  cbn in H. apply IH in H as [H|H].
  - apply stored_offset_step in H as [H|[Heq ->]]; [by left|right].
    cbn. rewrite decide_True by done. apply list_elem_of_here.
  - right. cbn in *. destruct (decide (ev_ProspectorInfo ev = p)); [by apply list_elem_of_further|done].
Qed.

Lemma stored_offset_Process (e : RegistrarEvent) (st : gmap positive FileState)
    (p : positive) (o : Z) :
  o ∈ stored_offset (Process e st) p →
  o ∈ stored_offset st p ∨ o ∈ offsets_of_event p e.
Proof.
  destruct e as [q s off fi|q|q s|evs]; cbn.
  - unfold NewFileEvent_Process, stored_offset. rewrite lookup_insert_eq.
    destruct (decide (q = p)) as [->|Hne].
    + rewrite lookup_insert_eq. cbn. intros ->%list_elem_of_singleton.
      right. apply list_elem_of_here.
    + rewrite !lookup_insert_ne by done. by left.
  - unfold DeletedEvent_Process, stored_offset.
    destruct (decide (q = p)) as [->|Hne].
    + rewrite lookup_delete_eq. by intros ?%elem_of_nil.
    + rewrite lookup_delete_ne by done. by left.
  - unfold RenamedEvent_Process, stored_offset.
    destruct (st !! q) as [fs|] eqn:Hq; [|by left].
    destruct (decide (q = p)) as [->|Hne].
    + rewrite lookup_insert_eq, Hq. by left.
    + rewrite lookup_insert_ne by done. by left.
  - apply stored_offset_events.
Qed.

Lemma offsets_for_app (p : positive) (es1 es2 : list RegistrarEvent) :
  offsets_for p (es1 ++ es2) = offsets_for p es1 ++ offsets_for p es2.
Proof. unfold offsets_for. by rewrite map_app, concat_app. Qed.

Lemma stored_offset_batch (es : list RegistrarEvent) (st : gmap positive FileState)
    (p : positive) (o : Z) :
  o ∈ stored_offset (ProcessBatch es st) p →
  o ∈ stored_offset st p ∨ o ∈ offsets_for p es.
Proof.
  revert st. induction es as [|e es IH]; intros st H; [by left|].
  cbn in H. apply IH in H as [H|H].
  - apply stored_offset_Process in H as [H|H]; [by left|right].
    change (e :: es) with ([e] ++ es). rewrite offsets_for_app.
    apply elem_of_app. left. unfold offsets_for. cbn. by rewrite app_nil_r.
  - right. change (e :: es) with ([e] ++ es). rewrite offsets_for_app.
    apply elem_of_app. by right.
Qed.

Lemma ProcessBatch_app (es1 es2 : list RegistrarEvent) (st : gmap positive FileState) :
  ProcessBatch (es1 ++ es2) st = ProcessBatch es2 (ProcessBatch es1 st).
Proof. unfold ProcessBatch. apply fold_left_app. Qed.

Lemma Register_state (range_state : gmap positive FileState -> list (positive * FileState))
    (chan : list (list RegistrarEvent)) (r : Registrar) :
  state (fst (Register range_state r chan)) = ProcessBatch (concat chan) (state r).
Proof.
  revert r. induction chan as [|es chan IH]; intros r; [done|].
  cbn. destruct (Register range_state _ chan) as [r2 docs] eqn:HR.
  cbn. rewrite ProcessBatch_app.
  specialize (IH (mkRegistrar (references r) (persistdir r) (statefile r)
                    (ProcessBatch es (state r)))).
  rewrite HR in IH. exact IH.
Qed.

Lemma sorted_app_le (l1 l2 : list Z) (x y : Z) :
  Sorted Z.le (l1 ++ l2) → x ∈ l1 → y ∈ l2 → x <= y.
Proof.
  intros Hs Hx Hy. apply Sorted_StronglySorted in Hs; [|intros a b c; lia].
  induction l1 as [|a l1 IH]; [by apply elem_of_nil in Hx|].
  cbn in Hs. apply StronglySorted_inv in Hs as [Hs Hall].
  apply elem_of_cons in Hx as [->|Hx]; [|by apply IH].
  rewrite List.Forall_forall in Hall. apply Hall.
  apply list_elem_of_In, elem_of_app. by right.
Qed.


(** *** The persisted document *)

Lemma build_json_lookup (visit : list (positive * FileState)) (acc : gmap string FileState)
    (path : string) (h : FileState) :
  fold_left (fun acc kv => <[Source (snd kv) := snd kv]> acc) visit acc !! path = Some h →
  acc !! path = Some h ∨ (Source h = path ∧ ∃ k, (k, h) ∈ visit).
Proof.
  revert acc. induction visit as [|[k v] visit IH]; intros acc H; [by left|].
  cbn in H. apply IH in H as [H|[Hs [k' Hk]]].
  - destruct (decide (Source v = path)) as [Heq|Hne].
    + rewrite Heq, lookup_insert_eq in H. injection H as <-.
      right. split; [done|]. exists k. apply list_elem_of_here.
    + rewrite lookup_insert_ne in H by done. by left.
  - right. split; [done|]. exists k'. by apply list_elem_of_further.
Qed.

Lemma build_json_dom (visit : list (positive * FileState)) (acc : gmap string FileState) :
  dom (fold_left (fun acc kv => <[Source (snd kv) := snd kv]> acc) visit acc)
  = dom acc ∪ list_to_set ((fun kv => Source (snd kv)) <$> visit).
Proof.
  revert acc. induction visit as [|[k v] visit IH]; intros acc; cbn.
  - set_solver.
  - rewrite IH, dom_insert_L. set_solver.
Qed.

Lemma fmap_NoDup_inj {A B : Type} (h : A → B) (l : list A) (x y : A) :
  NoDup (h <$> l) → x ∈ l → y ∈ l → h x = h y → x = y.
Proof.
  induction l as [|a l IH]; intros Hnd Hx Hy Heq; [by apply elem_of_nil in Hx|].
  cbn in Hnd. apply NoDup_cons in Hnd as [Hna Hnd].
  apply elem_of_cons in Hx as [->|Hx]; apply elem_of_cons in Hy as [->|Hy]; try done.
  - exfalso. apply Hna. rewrite Heq. by apply list_elem_of_fmap_2.
  - exfalso. apply Hna. rewrite <- Heq. by apply list_elem_of_fmap_2.
  - by apply IH.
Qed.

Lemma size_list_to_set_le (l : list string) :
  (size (list_to_set l : gset string) ≤ length l)%nat.
Proof.
  induction l as [|x l IH]; cbn; [by rewrite size_empty|].
  destruct (decide (x ∈ l)) as [Hin|Hnin].
  - replace ({[x]} ∪ list_to_set l : gset string) with (list_to_set l : gset string)
      by set_solver. lia.
  - rewrite size_union by set_solver. rewrite size_singleton. lia.
Qed.

Lemma size_list_to_set_dup (l : list string) :
  ¬ NoDup l → (size (list_to_set l : gset string) < length l)%nat.
Proof.
  induction l as [|x l IH]; intros Hnd; [exfalso; apply Hnd; constructor|].
  cbn. destruct (decide (x ∈ l)) as [Hin|Hnin].
  - replace ({[x]} ∪ list_to_set l : gset string) with (list_to_set l : gset string)
      by set_solver.
    pose proof (size_list_to_set_le l). lia.
  - rewrite size_union by set_solver. rewrite size_singleton.
    assert (¬ NoDup l) as Hl by (intros ?; apply Hnd; by constructor).
    specialize (IH Hl). lia.
Qed.

(** *** Loading the previous state *)

Lemma LoadPrevious_loop_spec (visit : list (string * FileState)) :
  ∀ (resume : gmap string positive) (st : gmap positive FileState) (next : positive)
    (resume' : gmap string positive) (st' : gmap positive FileState) (next' : positive),
  NoDup visit.*1 →
  (∀ p, is_Some (st !! p) → (p < next)%positive) →
  LoadPrevious_loop visit resume st next = (resume', st', next') →
  dom resume' = dom resume ∪ list_to_set visit.*1
  ∧ (∀ file fs, (file, fs) ∈ visit → ∃ p, resume' !! file = Some p ∧ st' !! p = Some fs)
  ∧ (∀ p fs, st !! p = Some fs → st' !! p = Some fs)
  ∧ (∀ file, file ∉ visit.*1 → resume' !! file = resume !! file)
  ∧ (∀ p fs, st' !! p = Some fs →
       st !! p = Some fs ∨ ∃ file, (file, fs) ∈ visit ∧ resume' !! file = Some p)
  ∧ (∀ p, is_Some (st' !! p) → (p < next')%positive).
Proof.
  induction visit as [|[file fs] visit IH]; intros resume st next resume' st' next' Hnd Hlt Hrun.
  - cbn in Hrun. injection Hrun as <- <- <-.
    repeat split; try done.
    + set_solver.
    + intros ? ? H. by apply elem_of_nil in H.
    + intros p fs H. by left.
  - cbn in Hrun. rewrite lookup_insert_eq in Hrun.
    cbn in Hnd. apply NoDup_cons in Hnd as [Hnin Hnd].
    apply IH in Hrun as (Hdom & Hin & Hkeep & Hout & Hback & Hlt'); [|done|].
    2:{ intros p [v Hp]. destruct (decide (next = p)) as [->|Hne]; [lia|].
        rewrite lookup_insert_ne in Hp by done.
        assert (p < next)%positive by (apply Hlt; eauto). lia. }
    assert (st !! next = None) as Hfresh.
    { destruct (st !! next) eqn:E; [|done].
      assert (next < next)%positive by (apply Hlt; eauto). lia. }
    repeat split.
    + rewrite Hdom, dom_insert_L. cbn. set_solver.
    + intros file0 fs0 [Heq|H]%elem_of_cons.
      * injection Heq as -> ->. exists next. split.
        -- by rewrite Hout, lookup_insert_eq.
        -- apply Hkeep. by rewrite lookup_insert_eq.
      * by apply Hin.
    + intros p fs0 Hp. apply Hkeep.
      rewrite lookup_insert_ne; [done|]. intros <-. by rewrite Hfresh in Hp.
    + intros file0 Hf. cbn in Hf. apply not_elem_of_cons in Hf as [Hne Hf].
      by rewrite Hout, lookup_insert_ne.
    + intros p fs0 Hp. apply Hback in Hp as [Hp|(file0 & Hf & Hr)].
      * destruct (decide (next = p)) as [->|Hne].
        -- rewrite lookup_insert_eq in Hp. injection Hp as <-.
           right. exists file. split; [apply list_elem_of_here|].
           by rewrite Hout, lookup_insert_eq.
        -- rewrite lookup_insert_ne in Hp by done. by left.
      * right. exists file0. split; [by apply list_elem_of_further|done].
    + done.
Qed.


(** *** The claims about the registrar *)

(** C3, as stated, fails: the handler of [EventsEvent] stores whatever offset
    the event carries. A file tracked at offset 10 is at offset 5 after a
    batch that carries offset 5 for it. *)
Lemma stored_offset_can_decrease :
  stored_offset (state (registrar_at 10)) 1 = [10]
  ∧ stored_offset
      (state (fst (Register map_to_list (registrar_at 10)
                     [[EventsEvent [mkFileEvent 1 5]]]))) 1 = [5]
  ∧ ¬ (∀ (r : Registrar) (chan : list (list RegistrarEvent)) (p : positive) (o1 o2 : Z),
         o1 ∈ stored_offset (state r) p →
         o2 ∈ stored_offset (state (fst (Register map_to_list r chan))) p →
         o1 <= o2).
Proof.
  split; [reflexivity|]. split; [reflexivity|].
  intros H.
  specialize (H (registrar_at 10) [[EventsEvent [mkFileEvent 1 5]]] 1%positive 10 5).
  assert (10 <= 5) as Hle; [|lia].
  apply H.
  - change (10 ∈ [10]). apply list_elem_of_here.
  - change (5 ∈ [5]). apply list_elem_of_here.
Qed.

(** C3 (amended): for a fixed tracked file [p], if the offsets the event
    stream carries for [p] (in its [NewFileEvent]s and its entries of
    [EventsEvent]s) are in non-decreasing order and not below the offset
    stored at the start, then the offset stored in the registrar's state for
    [p] never decreases: the offset stored after any number of batches is at
    most the offset stored after any further batches. *)
Theorem stored_offset_monotone
    (range_state : gmap positive FileState -> list (positive * FileState))
    (r : Registrar) (chan1 chan2 : list (list RegistrarEvent)) (p : positive) (o1 o2 : Z) :
  Sorted Z.le (stored_offset (state r) p ++ offsets_for p (concat (chan1 ++ chan2))) →
  o1 ∈ stored_offset (state (fst (Register range_state r chan1))) p →
  o2 ∈ stored_offset
         (state (fst (Register range_state (fst (Register range_state r chan1)) chan2))) p →
  o1 <= o2.
Proof.
  intros Hsorted H1 H2.
  rewrite Register_state in H2. apply stored_offset_batch in H2 as [H2|H2].
  - unfold stored_offset in H1, H2.
    destruct (state (fst (Register range_state r chan1)) !! p) as [fs|].
    + apply list_elem_of_singleton in H1, H2. lia.
    + by apply elem_of_nil in H1.
  - rewrite Register_state in H1. apply stored_offset_batch in H1.
    rewrite concat_app, offsets_for_app, app_assoc in Hsorted.
    eapply sorted_app_le; [exact Hsorted| |exact H2].
    apply elem_of_app. destruct H1; [by left|by right].
Qed.

Lemma stored_offset_monotone_witness :
  Sorted Z.le (stored_offset (state (registrar_at 10)) 1
               ++ offsets_for 1 (concat ([[EventsEvent [mkFileEvent 1 20]]]
                                         ++ [[EventsEvent [mkFileEvent 1 30]]])))
  ∧ 20 <= 30.
Proof.
  assert (Sorted Z.le [10; 20; 30]) as Hs.
  { repeat constructor; lia. }
  split; [exact Hs|].
  apply (stored_offset_monotone map_to_list (registrar_at 10)
           [[EventsEvent [mkFileEvent 1 20]]] [[EventsEvent [mkFileEvent 1 30]]] 1%positive).
  - exact Hs.
  - change (20 ∈ [20]). apply list_elem_of_here.
  - change (30 ∈ [30]). apply list_elem_of_here.
Defined.

(** C8: when the [ProspectorInfo] of a [RenamedEvent], or of an entry of an
    [EventsEvent], is not a key of the state map, the event (the entry) leaves
    the map as it is: a [RenamedEvent] for it is a no-op, each of its
    offset updates is a no-op, an [EventsEvent] does what it does without the
    entries of the unknown file, and no entry for it appears. *)
Theorem unknown_file_is_skipped
    (st : gmap positive FileState) (p : positive) (source : string) (o : Z)
    (evs : list FileEvent) :
  st !! p = None →
  Process (RenamedEvent p source) st = st
  ∧ EventsEvent_step st (mkFileEvent p o) = st
  ∧ Process (EventsEvent [mkFileEvent p o]) st = st
  ∧ Process (EventsEvent evs) st
    = Process (EventsEvent (filter (fun ev => ev_ProspectorInfo ev ≠ p) evs)) st
  ∧ Process (EventsEvent evs) st !! p = None.
Proof.
  intros H. repeat split.
  - cbn. unfold RenamedEvent_Process. by rewrite H.
  - by apply step_absent.
  - cbn. by apply step_absent.
  - cbn. by apply events_filter_absent.
  - cbn. by apply events_keep_absent.
Qed.

Lemma unknown_file_is_skipped_witness :
  Process (RenamedEvent 2 "/var/log/b.log") (tracked_at 10) = tracked_at 10
  ∧ Process (EventsEvent [mkFileEvent 2 99]) (tracked_at 10) = tracked_at 10.
Proof.
  destruct (unknown_file_is_skipped (tracked_at 10) 2%positive "/var/log/b.log" 99 [])
    as (H1 & _ & H3 & _); [reflexivity|].
  exact (conj H1 H3).
Defined.

(** C9: the document written after a batch is keyed by [Source]: every entry
    is the state of a tracked file, filed under that state's own [Source], so
    a path has one entry. When two tracked files carry the same [Source], that
    path still has a single entry, the document has fewer entries than there
    are tracked files, and when the two offsets differ at least one of them is
    not the offset written for the path. *)
Theorem state_json_one_entry_per_path
    (range_state : gmap positive FileState -> list (positive * FileState))
    (r : Registrar) (events : list RegistrarEvent) (p q : positive) (f g : FileState) :
  (∀ m, range_state m ≡ₚ map_to_list m) →
  p ≠ q →
  state (fst (Register_batch range_state r events)) !! p = Some f →
  state (fst (Register_batch range_state r events)) !! q = Some g →
  Source f = Source g →
  (∀ path h, snd (Register_batch range_state r events) !! path = Some h →
     Source h = path ∧ ∃ k, state (fst (Register_batch range_state r events)) !! k = Some h)
  ∧ (∃ h, snd (Register_batch range_state r events) !! Source f = Some h
          ∧ (Offset f ≠ Offset g → Offset h ≠ Offset f ∨ Offset h ≠ Offset g))
  ∧ (size (snd (Register_batch range_state r events))
     < size (state (fst (Register_batch range_state r events))))%nat.
Proof.
  intros Hperm Hpq Hp Hq Hsrc. cbn in *.
  set (st := ProcessBatch events (state r)) in *.
  assert (∀ k h, (k, h) ∈ range_state st ↔ st !! k = Some h) as Hmem.
  { intros k h. rewrite (Hperm st). apply elem_of_map_to_list. }
  assert (is_Some (build_state_json (range_state st) !! Source f)) as [h Hh].
  { apply elem_of_dom. unfold build_state_json. rewrite build_json_dom.
    apply elem_of_union_r, elem_of_list_to_set.
    apply (list_elem_of_fmap_2 (fun kv => Source (snd kv)) _ (p, f)). by apply Hmem. }
  repeat split.
  - unfold build_state_json in H.
    apply build_json_lookup in H as [H|[Hs _]]; [by rewrite lookup_empty in H|done].
  - unfold build_state_json in H.
    apply build_json_lookup in H as [H|[_ [k Hk]]]; [by rewrite lookup_empty in H|].
    exists k. by apply Hmem.
  - exists h. split; [done|]. intros Hne.
    destruct (decide (Offset h = Offset f)) as [Heq|]; [|by left].
    right. congruence.
  - rewrite <- size_dom. unfold build_state_json.
    rewrite build_json_dom, dom_empty_L, (left_id_L ∅ (∪)).
    rewrite <- (length_map_to_list st), <- (Hperm st).
    rewrite <- (length_fmap (fun kv => Source (snd kv)) (range_state st)).
    apply size_list_to_set_dup. intros Hnd.
    assert ((p, f) = (q, g)) as Heq; [|congruence].
    apply (fmap_NoDup_inj (fun kv => Source (snd kv)) (range_state st)); try done.
    + by apply Hmem.
    + by apply Hmem.
Qed.

Lemma state_json_one_entry_per_path_witness :
  (size (snd (Register_batch map_to_list
                (mkRegistrar 1 "/var/lib/log-courier" ".log-courier" two_files_one_path) []))
   < 2)%nat.
Proof.
  pose proof (state_json_one_entry_per_path map_to_list
                (mkRegistrar 1 "/var/lib/log-courier" ".log-courier" two_files_one_path) []
                1%positive 2%positive
                (mkFileState "/var/log/a.log" 10 (mkFileIdentity 2049 77))
                (mkFileState "/var/log/a.log" 700 (mkFileIdentity 2049 78))) as H.
  destruct H as (_ & _ & H).
  - intros m. reflexivity.
  - discriminate.
  - reflexivity.
  - reflexivity.
  - reflexivity.
  - exact H.
Defined.


Lemma LoadPrevious_loop_loaded
    (range_data : gmap string FileState -> list (string * FileState))
    (data : gmap string FileState) (r : Registrar) (next : positive) :
  range_data data ≡ₚ map_to_list data →
  loaded_from data
    (Some (LoadPrevious_loop (range_data data) ∅ ∅ next).1.1)
    (mkRegistrar (references r) (persistdir r) (statefile r)
       (LoadPrevious_loop (range_data data) ∅ ∅ next).1.2).
Proof.
  intros Hperm.
  destruct (LoadPrevious_loop (range_data data) ∅ ∅ next) as [[m st] next'] eqn:Hrun.
  apply LoadPrevious_loop_spec in Hrun as (Hdom & Hin & _ & _ & Hback & _).
  - exists m. cbn. repeat split.
    + rewrite Hdom, dom_empty_L, (left_id_L ∅ (∪)), Hperm. apply set_eq. intros file.
      rewrite elem_of_list_to_set, elem_of_dom, list_elem_of_fmap. split.
      * intros [[file' fs] [-> H]]. apply elem_of_map_to_list in H. eauto.
      * intros [fs H]. exists (file, fs). split; [done|]. by apply elem_of_map_to_list.
    + intros file fs H. apply Hin. rewrite Hperm. by apply elem_of_map_to_list.
    + intros p fs H. apply Hback in H as [H|(file & Hf & Hr)].
      * by rewrite lookup_empty in H.
      * exists file. split; [|done]. rewrite Hperm in Hf. by apply elem_of_map_to_list in Hf.
  - rewrite Hperm. apply NoDup_fst_map_to_list.
  - intros p [v H]. by rewrite lookup_empty in H.
Qed.

(** C6: [LoadPrevious] first opens [<persist_dir>/.log-courier]; it opens
    [<persist_dir>/.log-courier.new] exactly when the first cannot be opened;
    when one of them opens, what the decoder gives is loaded into the
    registrar's state and the resume map, keyed by the paths of the document,
    is returned; when neither opens the result is nil and the registrar is as
    it was. *)
Theorem LoadPrevious_tries_new_file
    (range_data : gmap string FileState -> list (string * FileState))
    (File : Type) (os_Open : string -> option File)
    (json_Decode : File -> gmap string FileState) (r : Registrar) (next : positive) :
  (∀ m, range_data m ≡ₚ map_to_list m) →
  match os_Open (persistdir r +:+ PathSeparator +:+ ".log-courier"),
        os_Open (persistdir r +:+ PathSeparator +:+ ".log-courier.new") with
  | Some f, _ =>
      lr_opened (LoadPrevious range_data File os_Open json_Decode r next)
      = [persistdir r +:+ PathSeparator +:+ ".log-courier"]
      ∧ loaded_from (json_Decode f)
          (lr_resume (LoadPrevious range_data File os_Open json_Decode r next))
          (lr_registrar (LoadPrevious range_data File os_Open json_Decode r next))
  | None, Some f =>
      lr_opened (LoadPrevious range_data File os_Open json_Decode r next)
      = [persistdir r +:+ PathSeparator +:+ ".log-courier"; persistdir r +:+ PathSeparator +:+ ".log-courier.new"]
      ∧ loaded_from (json_Decode f)
          (lr_resume (LoadPrevious range_data File os_Open json_Decode r next))
          (lr_registrar (LoadPrevious range_data File os_Open json_Decode r next))
  | None, None =>
      lr_opened (LoadPrevious range_data File os_Open json_Decode r next)
      = [persistdir r +:+ PathSeparator +:+ ".log-courier"; persistdir r +:+ PathSeparator +:+ ".log-courier.new"]
      ∧ lr_resume (LoadPrevious range_data File os_Open json_Decode r next) = None
      ∧ lr_registrar (LoadPrevious range_data File os_Open json_Decode r next) = r
  end.
Proof.
  intros Hperm. unfold LoadPrevious.
  destruct (os_Open (persistdir r +:+ PathSeparator +:+ ".log-courier")) as [f|].
  - pose proof (LoadPrevious_loop_loaded range_data (json_Decode f) r next (Hperm _)) as H.
    destruct (LoadPrevious_loop (range_data (json_Decode f)) ∅ ∅ next) as [[m st] next'].
    by split.
  - destruct (os_Open (persistdir r +:+ PathSeparator +:+ ".log-courier.new")) as [f|].
    + pose proof (LoadPrevious_loop_loaded range_data (json_Decode f) r next (Hperm _)) as H.
      destruct (LoadPrevious_loop (range_data (json_Decode f)) ∅ ∅ next) as [[m st] next'].
      by split.
    + by repeat split.
Qed.

Lemma LoadPrevious_tries_new_file_witness :
  lr_opened (LoadPrevious map_to_list _ only_new_file id (registrar_at 0) 1)
  = ["/var/lib/log-courier/.log-courier"; "/var/lib/log-courier/.log-courier.new"]
  ∧ ∃ m, lr_resume (LoadPrevious map_to_list _ only_new_file id (registrar_at 0) 1) = Some m
         ∧ dom m = {[ "/var/log/a.log" ]}.
Proof.
  pose proof (LoadPrevious_tries_new_file map_to_list _ only_new_file id (registrar_at 0) 1)
    as H.
  cbn in H. destruct H as [Ho (m & Hm & Hdom & _)].
  - intros m. reflexivity.
  - split; [exact Ho|]. exists m. split; [exact Hm|].
    rewrite Hdom. apply dom_singleton_L.
Defined.

End RegistrarFacts.

(* ===================================================================== *)
(** ** Properties of the transport *)
(* ===================================================================== *)

Module TransportFacts.
Import Transport.

(** *** The receiver *)

Lemma receiver_loop_unfold (fuel : nat) (script : list sock_event) (header : list byte) :
  receiver_loop (S fuel) script header
  = match receiverRead script header with
    | ReadBlocked => ([], TaskBlocked)
    | ReadDone header1 (Some e) _ _ => (receiver_exit (Some e), TaskDone)
    | ReadDone header1 None true _ => ([], TaskDone)
    | ReadDone header1 None false rest =>
        let length := Uint32 (take 4 (drop 4 header1)) in
        let sanity :=
          if 1048576 <? length then [OutRecv (RecvErr (too_large length))] else [] in
        let message := copy (make_bytes (Z.to_nat ((8 + length) mod 2 ^ 32))) header1 in
        if (List.length message <? 8)%nat then
          (sanity, TaskPanic "slice bounds out of range")
        else
          match receiverRead rest (drop 8 message) with
          | ReadBlocked => (sanity, TaskBlocked)
          | ReadDone payload (Some e) _ _ => (sanity ++ receiver_exit (Some e), TaskDone)
          | ReadDone payload None true _ => (sanity, TaskDone)
          | ReadDone payload None false rest' =>
              let '(outs, fin) := receiver_loop fuel rest' header1 in
              (sanity ++ [OutRecv (RecvMsg (take 8 message ++ payload)); OutCanRecv] ++ outs,
               fin)
          end
    end.
Proof. reflexivity. Qed.

(** A read that brings exactly the bytes the buffer has room for. *)
Lemma receiverRead_exact (bs data : list byte) (rest : list sock_event) :
  length data = length bs → (0 < length bs)%nat →
  receiverRead (SockRead bs None :: rest) data = ReadDone bs None false rest.
Proof.
  intros Hlen Hpos. unfold receiverRead. cbn [receiverRead_from].
  rewrite Nat.sub_0_r, Hlen.
  destruct (Nat.eqb_spec (length bs) 0) as [?|_]; [lia|].
  rewrite Nat.ltb_irrefl.
  unfold copy_at. rewrite take_0, Nat.add_0_l, <- Hlen, drop_all.
  cbn. by rewrite app_nil_r.
Qed.

Lemma message_buffer (h : list byte) (n : nat) :
  length h = 8%nat → (8 ≤ n)%nat →
  copy (make_bytes n) h = h ++ replicate (n - 8) Byte.x00.
Proof.
  intros Hh Hn. unfold copy, make_bytes.
  rewrite length_replicate, Hh, take_ge by lia.
  by rewrite drop_replicate.
Qed.


Lemma script_size_read (bs : list byte) (err : option error) (rest : list sock_event) :
  script_size (SockRead bs err :: rest) = S (length bs + script_size rest).
Proof. reflexivity. Qed.

(** C1 fails on the code, which the claim describes as it should be. A frame
    whose length field is above 1048576 puts the error "Received message too
    large" on [recv_chan] (without raising [can_recv]) and the loop goes on:
    the buffer is allocated, the payload is read, the frame is delivered as a
    message, and the receiver reads the next frame. *)
Theorem receiver_reads_on_after_oversized_frame
    (fuel : nat) (header0 h payload : list byte) (rest : list sock_event) :
  length header0 = 8%nat →
  length h = 8%nat →
  1048576 < Uint32 (take 4 (drop 4 h)) →
  Uint32 (take 4 (drop 4 h)) < 2 ^ 32 - 8 →
  Z.of_nat (length payload) = Uint32 (take 4 (drop 4 h)) →
  receiver_loop (S fuel) (SockRead h None :: SockRead payload None :: rest) header0
  = (OutRecv (RecvErr (too_large (Uint32 (take 4 (drop 4 h)))))
       :: OutRecv (RecvMsg (h ++ payload)) :: OutCanRecv
       :: fst (receiver_loop fuel rest h),
     snd (receiver_loop fuel rest h)).
Proof.
  intros H0 Hh Hbig Hsmall Hpay.
  rewrite receiver_loop_unfold.
  rewrite receiverRead_exact by lia.
  cbv zeta. set (L := Uint32 (take 4 (drop 4 h))) in *.
  destruct (Z.ltb_spec 1048576 L) as [_|?]; [|lia].
  rewrite Z.mod_small by lia.
  replace (Z.to_nat (8 + L)) with (8 + length payload)%nat by lia.
  rewrite message_buffer by lia.
  replace (8 + length payload - 8)%nat with (length payload) by lia.
  rewrite length_app, length_replicate, Hh.
  destruct (Nat.ltb_spec (8 + length payload) 8) as [?|_]; [lia|].
  rewrite (drop_app_length' h _ 8) by done.
  rewrite receiverRead_exact by (rewrite ?length_replicate; lia).
  rewrite (take_app_length' h _ 8) by done.
  by destruct (receiver_loop fuel rest h).
Qed.

Lemma receiver_loop_shutdown (fuel : nat) (rest : list sock_event) (header : list byte) :
  receiver_loop (S fuel) (SockShutdown :: rest) header = ([], TaskDone).
Proof. reflexivity. Qed.

Lemma too_large_1048577 :
  too_large 1048577 = PlainError "Received message too large (1048577)".
Proof. vm_compute. reflexivity. Qed.

Lemma oversized_header_length : Uint32 (take 4 (drop 4 oversized_header)) = 1048577.
Proof. vm_compute. reflexivity. Qed.

Lemma receiver_reads_on_after_oversized_frame_witness :
  receiver [SockRead oversized_header None; SockRead oversized_payload None; SockShutdown]
  = ([OutRecv (RecvErr (PlainError "Received message too large (1048577)"));
      OutRecv (RecvMsg (oversized_header ++ oversized_payload));
      OutCanRecv],
     TaskDone).
Proof.
  unfold receiver. rewrite script_size_read.
  rewrite (receiver_reads_on_after_oversized_frame _ (make_bytes 8) oversized_header
             oversized_payload [SockShutdown]).
  - rewrite oversized_header_length, too_large_1048577.
    rewrite script_size_read, Nat.add_succ_r, receiver_loop_shutdown.
    reflexivity.
  - reflexivity.
  - reflexivity.
  - rewrite oversized_header_length. lia.
  - rewrite oversized_header_length. lia.
  - rewrite oversized_header_length. unfold oversized_payload.
    rewrite length_replicate. lia.
Defined.

(** *** Connect and Disconnect *)

Lemma Connect_loop_app (t : TransportTls) (failed : list attempt) (script : list attempt) :
  Forall (fun a => Connect_attempt t a = Retry) failed →
  Connect_loop t (failed ++ script) = Connect_loop t script.
Proof.
  induction 1 as [|a failed Ha _ IH]; [done|].
  cbn. by rewrite Ha.
Qed.

(** C10: a [Connect] that gets through (after any number of failed attempts)
    returns with the [can_send] signal raised exactly once, before anything
    was flushed: the channel holds one value, a waiter takes it and finds the
    channel empty again, [send_chan] is empty, so the first [Flush] of the
    caller goes through without waiting. *)
Theorem Connect_raises_can_send_once
    (t : TransportTls) (failed : list attempt) (a : attempt) (rest : list attempt) (c : Conn) :
  Forall (fun a' => Connect_attempt t a' = Retry) failed →
  Connect_attempt t a = Established c →
  ∃ t', Connect t (failed ++ a :: rest) = Ok (t', rest)
        ∧ socket t' = Some c
        ∧ can_send t' = Chan 1 [1] false
        ∧ chan_recv (can_send t') = Ok (1, Chan 1 [] false)
        ∧ send_chan t' = Chan 1 [] false
        ∧ write_buffer t' = []
        ∧ wait t' = wait t + 2
        ∧ ∀ p, ∃ t'', Flush (fst (Write t' p)) = Ok t''
                      ∧ send_chan t'' = Chan 1 [p] false
                      ∧ write_buffer t'' = []
                      ∧ can_send t'' = Chan 1 [1] false.
Proof.
  intros Hfailed Ha. unfold Connect.
  rewrite Connect_loop_app by done. cbn. rewrite Ha. cbn.
  eexists. split; [reflexivity|]. cbn. repeat split.
  intros p. eexists. split; [reflexivity|]. by cbn.
Qed.

Lemma Connect_raises_can_send_once_witness :
  Connect new_transport [resolver_down; attempt_ok] = Ok (connected_transport, [])
  ∧ can_send connected_transport = Chan 1 [1] false.
Proof.
  destruct (Connect_raises_can_send_once new_transport [resolver_down] attempt_ok []
              (mkConn "192.0.2.10:5043" false))
    as (t' & Hc & _ & Hs & _).
  - repeat constructor.
  - reflexivity.
  - split; [reflexivity|reflexivity].
Defined.





(** *** The write wrapper and the sender *)





End TransportFacts.

(* ===================================================================== *)
(** ** Properties of the binary *)
(* ===================================================================== *)

Module LogCourierFacts.
Import LogCourier.

(** *** Reloading the configuration *)

(** C2, as stated, fails: [loadConfig] puts a new configuration object in
    [lc.config] before it loads the file, so after a reload whose load fails
    [lc.config] is that new object, not the one in effect before. *)
Lemma reload_failure_replaces_config :
  config running_agent = Some 1%positive
  ∧ snd (reloadConfig running_agent broken_load None) = snd broken_load
  ∧ config (fst (reloadConfig running_agent broken_load None)) = Some 2%positive
  ∧ ¬ (∀ (lc : logCourier) (ld : load_outcome) (serr : option error),
         is_Some (snd ld) → config (fst (reloadConfig lc ld serr)) = config lc).
Proof.
  split_and!; try reflexivity.
  intros H. specialize (H running_agent broken_load None).
  assert (Some 2%positive = Some 1%positive) as Heq; [|discriminate].
  apply H. by eexists.
Qed.

(** C2 (amended): when the load of a reload fails, [reloadConfig] returns
    that error and nothing is applied: no configuration is sent to the
    pipeline, whose components keep the configuration object they had, with
    its content unchanged; the log level, the log file and the metrics
    listener are left alone; and the signal loop goes on. *)
Theorem reload_failure_keeps_pipeline_config
    (lc : logCourier) (ld : load_outcome) (serr : option error) (e : error)
    (events : list run_event) :
  snd ld = Some e →
  snd (reloadConfig lc ld serr) = Some e
  ∧ workers_config (fst (reloadConfig lc ld serr)) = workers_config lc
  ∧ (∀ p, (p < next lc)%positive → heap (fst (reloadConfig lc ld serr)) !! p = heap lc !! p)
  ∧ log_level (fst (reloadConfig lc ld serr)) = log_level lc
  ∧ logFile (fst (reloadConfig lc ld serr)) = logFile lc
  ∧ reopened (fst (reloadConfig lc ld serr)) = reopened lc
  ∧ metricsServer (fst (reloadConfig lc ld serr)) = metricsServer lc
  ∧ SignalLoop lc (SigReload ld serr :: events)
    = SignalLoop (fst (reloadConfig lc ld serr)) events.
Proof.
  intros He.
  assert (reloadConfig lc ld serr = (fst (loadConfig lc ld), Some e)) as Hr.
  { unfold reloadConfig, loadConfig. by rewrite He. }
  split_and!; try reflexivity; try (rewrite Hr; reflexivity).
  intros p Hp. rewrite Hr. cbn. rewrite !lookup_insert_ne by lia. done.
Qed.

Lemma reload_failure_keeps_pipeline_config_witness :
  snd (reloadConfig running_agent broken_load None)
  = Some (Transport.PlainError "invalid character '}'")
  ∧ workers_config (fst (reloadConfig running_agent broken_load None)) = Some 1%positive
  ∧ heap (fst (reloadConfig running_agent broken_load None)) !! 1%positive = Some good_config.
Proof.
  destruct (reload_failure_keeps_pipeline_config running_agent broken_load None
              (Transport.PlainError "invalid character '}'") [])
    as (H1 & H2 & H3 & _).
  - reflexivity.
  - split_and!; [exact H1|exact H2|].
    rewrite (H3 1%positive); [reflexivity|reflexivity].
Defined.


(** *** Exit status *)





Lemma startUp_continue (fl : Flags) (env : StartEnv) (lc : logCourier) :
  startUp newLogCourier fl env = Continue lc →
  stdin lc = f_stdin fl ∧ (profiling lc = true → f_cpuProfile fl ≠ "").
Proof.
  unfold startUp, loadConfig, configureLogging, startListener, os_Exit, log_Fatal.
  destruct fl as [v ct ls prof cf si fb], env as [[cfg le] lb lp cp ad rp pr rr]. cbn.
  intros H.
  destruct (String.eqb_spec prof "") as [->|Hp];
    repeat case_match; simplify_eq; cbn; split; done.
Qed.










End LogCourierFacts.

(* ===================================================================== *)
(** ** Further properties of the registrar *)
(* ===================================================================== *)

Module RegistrarLaws.
Import Registrar RegistrarChannel.

(** *** The four event handlers *)

(** X1: a [NewFileEvent] leaves under its [ProspectorInfo] exactly the path
    and offset of the event with the identity read from its file info,
    whatever was stored there before, and touches no other entry. *)
Theorem NewFileEvent_registers
    (st : gmap positive FileState) (p q : positive) (source : string) (o : Z)
    (info : FileInfo) :
  Process (NewFileEvent p source o info) st !! p
  = Some (mkFileState source o (mkFileIdentity (fi_Device info) (fi_Inode info)))
  ∧ (q ≠ p → Process (NewFileEvent p source o info) st !! q = st !! q).
Proof.
  cbn. unfold NewFileEvent_Process. rewrite lookup_insert_eq. split.
  - by rewrite lookup_insert_eq.
  - intros Hne. by rewrite !lookup_insert_ne.
Qed.

Lemma NewFileEvent_registers_witness :
  Process (NewFileEvent 1 "/var/log/c.log" 0 (mkFileInfo 2049 90)) (tracked_at 10) !! 2%positive
  = tracked_at 10 !! 2%positive.
Proof.
  apply (NewFileEvent_registers (tracked_at 10) 1 2 "/var/log/c.log" 0 (mkFileInfo 2049 90)).
  discriminate.
Defined.

(** X2: a [DeletedEvent] undoes a [NewFileEvent] for the same file: the two
    in a row leave the map as a lone [DeletedEvent] does, which is the map
    itself when the file was not tracked. A [DeletedEvent] touches no other
    entry. *)
Theorem DeletedEvent_undoes_NewFileEvent
    (st : gmap positive FileState) (p q : positive) (source : string) (o : Z)
    (info : FileInfo) :
  Process (DeletedEvent p) (Process (NewFileEvent p source o info) st)
  = Process (DeletedEvent p) st
  ∧ (st !! p = None → Process (DeletedEvent p) st = st)
  ∧ Process (DeletedEvent p) st !! p = None
  ∧ (q ≠ p → Process (DeletedEvent p) st !! q = st !! q).
Proof.
  cbn. unfold NewFileEvent_Process, DeletedEvent_Process. rewrite lookup_insert_eq.
  split_and!.
  - by rewrite !delete_insert_eq.
  - apply delete_id.
  - apply lookup_delete_eq.
  - intros Hne. by rewrite lookup_delete_ne.
Qed.

Lemma DeletedEvent_undoes_NewFileEvent_witness :
  Process (DeletedEvent 2) (tracked_at 10) = tracked_at 10.
Proof.
  destruct (DeletedEvent_undoes_NewFileEvent (tracked_at 10) 2 1 "" 0 (mkFileInfo 0 0))
    as (_ & H & _).
  apply H. reflexivity.
Defined.

(** X3: a [RenamedEvent] for a tracked file replaces the stored path and
    keeps the offset and the identity; no other entry changes and the set of
    tracked files stays the same. *)
Theorem RenamedEvent_keeps_offset
    (st : gmap positive FileState) (p : positive) (f : FileState) (source : string) :
  st !! p = Some f →
  Process (RenamedEvent p source) st !! p = Some (mkFileState source (Offset f) (Ids f))
  ∧ (∀ q, q ≠ p → Process (RenamedEvent p source) st !! q = st !! q)
  ∧ dom (Process (RenamedEvent p source) st) = dom st.
Proof.
  intros H. cbn. unfold RenamedEvent_Process. rewrite H. split_and!.
  - by rewrite lookup_insert_eq.
  - intros q Hne. by rewrite lookup_insert_ne.
  - rewrite dom_insert_L. apply elem_of_dom_2 in H. set_solver.
Qed.

Lemma RenamedEvent_keeps_offset_witness :
  Process (RenamedEvent 1 "/var/log/a.log.1") (tracked_at 10) !! 1%positive
  = Some (mkFileState "/var/log/a.log.1" 10 (mkFileIdentity 2049 77)).
Proof.
  destruct (RenamedEvent_keeps_offset (tracked_at 10) 1
              (mkFileState "/var/log/a.log" 10 (mkFileIdentity 2049 77)) "/var/log/a.log.1")
    as (H & _).
  - reflexivity.
  - exact H.
Defined.

Lemma default_last_cons (o x : Z) (l : list Z) :
  default x (last (o :: l)) = default o (last l).
Proof.
  revert o x. induction l as [|a l IH]; intros o x; [done|].
  rewrite last_cons_cons. by rewrite (IH a x), (IH a o).
Qed.

Lemma offsets_of_events_cons (p : positive) (ev : FileEvent) (evs : list FileEvent) :
  offsets_of_event p (EventsEvent (ev :: evs))
  = (if decide (ev_ProspectorInfo ev = p) then [ev_Offset ev] else [])
    ++ offsets_of_event p (EventsEvent evs).
Proof. cbn. by destruct (decide (ev_ProspectorInfo ev = p)). Qed.

Lemma EventsEvent_last_wins_gen (evs : list FileEvent) :
  ∀ (st : gmap positive FileState) (p : positive) (f : FileState),
  st !! p = Some f →
  EventsEvent_Process evs st !! p
  = Some (mkFileState (Source f) (default (Offset f) (last_offset p evs)) (Ids f)).
Proof.
  unfold last_offset.
  induction evs as [|ev evs IH]; intros st p f H.
  - cbn. rewrite H. by destruct f.
  - change (EventsEvent_Process (ev :: evs) st)
      with (EventsEvent_Process evs (EventsEvent_step st ev)).
    rewrite offsets_of_events_cons.
    destruct (decide (ev_ProspectorInfo ev = p)) as [Heq|Hne].
    + cbn [app]. rewrite default_last_cons.
      rewrite (IH _ p (mkFileState (Source f) (ev_Offset ev) (Ids f))); [done|].
      unfold EventsEvent_step. rewrite Heq, H. by rewrite lookup_insert_eq.
    + cbn [app]. apply IH. unfold EventsEvent_step.
      destruct (st !! ev_ProspectorInfo ev); [|done]. by rewrite lookup_insert_ne.
Qed.

(** X4: an [EventsEvent] leaves a tracked file at the offset of the last of
    its entries for that file (at the old offset when it has none), with the
    path and the identity it had. *)
Theorem EventsEvent_last_entry_wins
    (st : gmap positive FileState) (p : positive) (f : FileState) (evs : list FileEvent) :
  st !! p = Some f →
  Process (EventsEvent evs) st !! p
  = Some (mkFileState (Source f) (default (Offset f) (last_offset p evs)) (Ids f)).
Proof. intros H. cbn. by apply EventsEvent_last_wins_gen. Qed.

Lemma EventsEvent_last_entry_wins_witness :
  Process (EventsEvent [mkFileEvent 1 40; mkFileEvent 2 99; mkFileEvent 1 25]) (tracked_at 10)
    !! 1%positive
  = Some (mkFileState "/var/log/a.log" 25 (mkFileIdentity 2049 77)).
Proof.
  apply (EventsEvent_last_entry_wins (tracked_at 10) 1
           (mkFileState "/var/log/a.log" 10 (mkFileIdentity 2049 77))
           [mkFileEvent 1 40; mkFileEvent 2 99; mkFileEvent 1 25]).
  reflexivity.
Defined.


(** *** Which files are tracked *)

Lemma step_tracks_same (st : gmap positive FileState) (ev : FileEvent) (p : positive) :
  is_Some (EventsEvent_step st ev !! p) ↔ is_Some (st !! p).
Proof.
  unfold EventsEvent_step. destruct (st !! ev_ProspectorInfo ev) as [fs|] eqn:Hev; [|done].
  destruct (decide (ev_ProspectorInfo ev = p)) as [<-|Hne].
  - rewrite lookup_insert_eq, Hev. split; eauto.
  - by rewrite lookup_insert_ne.
Qed.

Lemma events_track_same (evs : list FileEvent) (st : gmap positive FileState) (p : positive) :
  is_Some (EventsEvent_Process evs st !! p) ↔ is_Some (st !! p).
Proof.
  revert st. induction evs as [|ev evs IH]; intros st; [done|].
  cbn. change (fold_left EventsEvent_step evs (EventsEvent_step st ev))
         with (EventsEvent_Process evs (EventsEvent_step st ev)).
  rewrite IH. apply step_tracks_same.
Qed.

Lemma Process_tracks_same (e : RegistrarEvent) (st : gmap positive FileState) (p : positive) :
  adds_or_removes p e = false →
  is_Some (Process e st !! p) ↔ is_Some (st !! p).
Proof.
  destruct e as [q s o fi|q|q s|evs]; cbn.
  - intros Hq%bool_decide_eq_false. unfold NewFileEvent_Process.
    rewrite lookup_insert_eq. by rewrite !lookup_insert_ne.
  - intros Hq%bool_decide_eq_false. unfold DeletedEvent_Process.
    by rewrite lookup_delete_ne.
  - intros _. unfold RenamedEvent_Process.
    destruct (st !! q) as [fs|] eqn:Hq; [|done].
    destruct (decide (q = p)) as [<-|Hne].
    + rewrite lookup_insert_eq, Hq. split; eauto.
    + by rewrite lookup_insert_ne.
  - intros _. apply events_track_same.
Qed.

(** X5: only a [NewFileEvent] starts the tracking of a file and only a
    [DeletedEvent] ends it: a batch with neither for a given file leaves it
    tracked if it was tracked and untracked if it was not. *)
Theorem tracking_changes_only_by_new_and_deleted
    (es : list RegistrarEvent) (st : gmap positive FileState) (p : positive) :
  Forall (fun e => adds_or_removes p e = false) es →
  is_Some (ProcessBatch es st !! p) ↔ is_Some (st !! p).
Proof.
  intros Hall. revert st. induction Hall as [|e es He _ IH]; intros st; [done|].
  cbn. change (fold_left (fun st0 e0 => Process e0 st0) es (Process e st))
         with (ProcessBatch es (Process e st)).
  rewrite IH. by apply Process_tracks_same.
Qed.

Lemma tracking_changes_only_by_new_and_deleted_witness :
  is_Some (ProcessBatch [RenamedEvent 1 "/var/log/a.log.1"; DeletedEvent 2;
                         EventsEvent [mkFileEvent 1 30]] (tracked_at 10) !! 1%positive).
Proof.
  apply (tracking_changes_only_by_new_and_deleted
           [RenamedEvent 1 "/var/log/a.log.1"; DeletedEvent 2; EventsEvent [mkFileEvent 1 30]]
           (tracked_at 10) 1).
  - repeat constructor.
  - by eexists.
Defined.

(** *** The documents written *)

Lemma build_json_skip (visit : list (positive * FileState)) (acc : gmap string FileState)
    (path : string) :
  path ∉ ((fun kv => Source (snd kv)) <$> visit) →
  fold_left (fun acc kv => <[Source (snd kv) := snd kv]> acc) visit acc !! path = acc !! path.
Proof.
  revert acc. induction visit as [|[k v] visit IH]; intros acc Hnin; [done|].
  cbn in *. apply not_elem_of_cons in Hnin as [Hne Hnin].
  rewrite IH by done. by rewrite lookup_insert_ne.
Qed.

Lemma build_json_keeps (visit : list (positive * FileState)) (acc : gmap string FileState)
    (k : positive) (v : FileState) :
  NoDup ((fun kv => Source (snd kv)) <$> visit) →
  (k, v) ∈ visit →
  fold_left (fun acc kv => <[Source (snd kv) := snd kv]> acc) visit acc !! Source v = Some v.
Proof.
  revert acc. induction visit as [|[k' v'] visit IH]; intros acc Hnd Hin.
  - by apply elem_of_nil in Hin.
  - cbn in Hnd. apply NoDup_cons in Hnd as [Hnin Hnd].
    apply elem_of_cons in Hin as [[= -> ->]|Hin].
    + cbn. rewrite build_json_skip by done. by rewrite lookup_insert_eq.
    + cbn. by apply IH.
Qed.

(** X6: when no two tracked files carry the same path, the document written
    after a batch loses nothing: it has one entry per tracked file, and the
    state of every tracked file is found in it under the file's path. *)
Theorem state_json_complete_without_collision
    (range_state : gmap positive FileState -> list (positive * FileState))
    (r : Registrar) (events : list RegistrarEvent) :
  (∀ m, range_state m ≡ₚ map_to_list m) →
  distinct_sources (state (fst (Register_batch range_state r events))) →
  size (snd (Register_batch range_state r events))
  = size (state (fst (Register_batch range_state r events)))
  ∧ ∀ p f, state (fst (Register_batch range_state r events)) !! p = Some f →
           snd (Register_batch range_state r events) !! Source f = Some f.
Proof.
  intros Hperm Hdist. cbn in *.
  set (st := ProcessBatch events (state r)) in *.
  assert (NoDup ((fun kv => Source (snd kv)) <$> range_state st)) as Hnd.
  { apply NoDup_fmap_2_strong.
    - intros [p f] [q g] Hp Hq Heq. cbn in Heq.
      rewrite (Hperm st) in Hp, Hq. apply elem_of_map_to_list in Hp, Hq.
      assert (p = q) as -> by (by eapply Hdist). congruence.
    - rewrite (Hperm st). apply NoDup_map_to_list. }
  split.
  - rewrite <- size_dom. unfold build_state_json.
    rewrite RegistrarFacts.build_json_dom, dom_empty_L, (left_id_L ∅ (∪)).
    rewrite size_list_to_set by done.
    by rewrite length_fmap, (Hperm st), length_map_to_list.
  - intros p f Hp. apply (build_json_keeps _ _ p); [done|].
    rewrite (Hperm st). by apply elem_of_map_to_list.
Qed.

Lemma state_json_complete_without_collision_witness :
  size (snd (Register_batch map_to_list
               (mkRegistrar 1 "/var/lib/log-courier" ".log-courier" two_files) [])) = 2%nat.
Proof.
  destruct (state_json_complete_without_collision map_to_list
              (mkRegistrar 1 "/var/lib/log-courier" ".log-courier" two_files) [])
    as [H _].
  - intros m. reflexivity.
  - intros p q f g Hp Hq Hs. cbn in Hp, Hq. unfold two_files, tracked_at in Hp, Hq.
    destruct (decide (p = 2%positive)) as [->|Hp2];
      destruct (decide (q = 2%positive)) as [->|Hq2]; [done| | |].
    + rewrite lookup_insert_eq in Hp. rewrite lookup_insert_ne in Hq by done.
      apply lookup_singleton_Some in Hq as [<- <-]. injection Hp as <-. discriminate.
    + rewrite lookup_insert_eq in Hq. rewrite lookup_insert_ne in Hp by done.
      apply lookup_singleton_Some in Hp as [<- <-]. injection Hq as <-. discriminate.
    + rewrite lookup_insert_ne in Hp, Hq by done.
      apply lookup_singleton_Some in Hp as [<- _], Hq as [<- _]. done.
  - exact H.
Defined.

Lemma Register_docs
    (range_state : gmap positive FileState -> list (positive * FileState))
    (chan : list (list RegistrarEvent)) :
  ∀ (r : Registrar) (k : nat) (doc : gmap string FileState),
  snd (Register range_state r chan) !! k = Some doc →
  doc = build_state_json (range_state (ProcessBatch (concat (take (S k) chan)) (state r))).
Proof.
  induction chan as [|es chan IH]; intros r k doc H; [done|].
  cbn in H.
  destruct (Register range_state _ chan) as [r2 docs] eqn:HR. cbn in H.
  destruct k as [|k].
  - cbn in H. injection H as <-. cbn. by rewrite app_nil_r.
  - cbn in H. cbn [take concat]. rewrite RegistrarFacts.ProcessBatch_app.
    specialize (IH (mkRegistrar (references r) (persistdir r) (statefile r)
                      (ProcessBatch es (state r))) k doc).
    rewrite HR in IH. by apply IH.
Qed.

Lemma Register_docs_length
    (range_state : gmap positive FileState -> list (positive * FileState))
    (chan : list (list RegistrarEvent)) :
  ∀ r : Registrar, length (snd (Register range_state r chan)) = length chan.
Proof.
  induction chan as [|es chan IH]; intros r; [done|].
  cbn. specialize (IH (mkRegistrar (references r) (persistdir r) (statefile r)
                         (ProcessBatch es (state r)))).
  destruct (Register range_state _ chan) as [r2 docs]. cbn in *. by rewrite IH.
Qed.

(** X7: [Register] writes the state once per batch received, never in the
    middle of a batch: there are as many documents as batches, and the
    document written after the k-th batch is built from the state that the
    events of the first k batches, in order, leave. *)
Theorem Register_writes_after_each_batch
    (range_state : gmap positive FileState -> list (positive * FileState))
    (r : Registrar) (chan : list (list RegistrarEvent)) (k : nat) :
  (k < length chan)%nat →
  length (snd (Register range_state r chan)) = length chan
  ∧ snd (Register range_state r chan) !! k
    = Some (build_state_json
              (range_state (ProcessBatch (concat (take (S k) chan)) (state r)))).
Proof.
  intros Hk. split; [apply Register_docs_length|].
  destruct (snd (Register range_state r chan) !! k) as [doc|] eqn:Hd.
  - by rewrite (Register_docs _ _ _ _ _ Hd).
  - apply lookup_ge_None in Hd. rewrite Register_docs_length in Hd. lia.
Qed.

Lemma Register_writes_after_each_batch_witness :
  snd (Register map_to_list (registrar_at 10)
         [[EventsEvent [mkFileEvent 1 20]]; [EventsEvent [mkFileEvent 1 30]]]) !! 1%nat
  = Some (build_state_json
            (map_to_list
               (ProcessBatch [EventsEvent [mkFileEvent 1 20]; EventsEvent [mkFileEvent 1 30]]
                  (tracked_at 10)))).
Proof.
  destruct (Register_writes_after_each_batch map_to_list (registrar_at 10)
              [[EventsEvent [mkFileEvent 1 20]]; [EventsEvent [mkFileEvent 1 30]]] 1)
    as [_ H].
  - cbn. lia.
  - exact H.
Defined.


(** *** Restart *)

Lemma LoadPrevious_main_file
    (range_data : gmap string FileState -> list (string * FileState))
    (File : Type) (os_Open : string -> option File)
    (json_Decode : File -> gmap string FileState) (r : Registrar) (next : positive) (f : File) :
  (∀ m, range_data m ≡ₚ map_to_list m) →
  os_Open (persistdir r +:+ PathSeparator +:+ ".log-courier") = Some f →
  loaded_from (json_Decode f)
    (lr_resume (LoadPrevious range_data File os_Open json_Decode r next))
    (lr_registrar (LoadPrevious range_data File os_Open json_Decode r next)).
Proof.
  intros Hperm Hopen. unfold LoadPrevious. rewrite Hopen.
  pose proof (RegistrarFacts.LoadPrevious_loop_loaded range_data (json_Decode f) r next
                (Hperm _)) as H.
  by destruct (LoadPrevious_loop (range_data (json_Decode f)) ∅ ∅ next) as [[m st] next'].
Qed.

(** X8: a restart reads back what was written. When the state file opens
    and its entries are filed under their own stored path (as in every
    document [Register] writes), the state [LoadPrevious] builds from it
    serializes to that same document again, whatever the iteration order of
    the maps. *)
Theorem load_then_write_gives_same_document
    (range_state : gmap positive FileState -> list (positive * FileState))
    (range_data : gmap string FileState -> list (string * FileState))
    (File : Type) (os_Open : string -> option File)
    (json_Decode : File -> gmap string FileState) (r : Registrar) (next : positive) (f : File) :
  (∀ m, range_state m ≡ₚ map_to_list m) →
  (∀ m, range_data m ≡ₚ map_to_list m) →
  os_Open (persistdir r +:+ PathSeparator +:+ ".log-courier") = Some f →
  filed_by_source (json_Decode f) →
  build_state_json
    (range_state (state (lr_registrar (LoadPrevious range_data File os_Open json_Decode r next))))
  = json_Decode f.
Proof.
  intros Hps Hpd Hopen Hfiled.
  destruct (LoadPrevious_main_file range_data File os_Open json_Decode r next f Hpd Hopen)
    as (m & _ & _ & Hfwd & Hback).
  set (st := state (lr_registrar (LoadPrevious range_data File os_Open json_Decode r next))) in *.
  assert (∀ k h, (k, h) ∈ range_state st ↔ st !! k = Some h) as Hmem.
  { intros k h. rewrite (Hps st). apply elem_of_map_to_list. }
  apply map_eq. intros path.
  destruct (json_Decode f !! path) as [fs|] eqn:Hd.
  - destruct (Hfwd path fs Hd) as (p & _ & Hp).
    assert (Source fs = path) as Hsrc by (by apply Hfiled).
    assert (is_Some (build_state_json (range_state st) !! path)) as [h Hh].
    { apply elem_of_dom. unfold build_state_json. rewrite RegistrarFacts.build_json_dom.
      apply elem_of_union_r, elem_of_list_to_set. rewrite <- Hsrc.
      apply (list_elem_of_fmap_2 (fun kv => Source (snd kv)) _ (p, fs)). by apply Hmem. }
    rewrite Hh. unfold build_state_json in Hh.
    apply RegistrarFacts.build_json_lookup in Hh as [Hh|[Hs [k Hk]]];
      [by rewrite lookup_empty in Hh|].
    apply Hmem, Hback in Hk as (file & Hfile & _).
    assert (file = path) as -> by (rewrite <- Hs; symmetry; by apply Hfiled).
    congruence.
  - destruct (build_state_json (range_state st) !! path) as [h|] eqn:Hh; [|done].
    unfold build_state_json in Hh.
    apply RegistrarFacts.build_json_lookup in Hh as [Hh|[Hs [k Hk]]];
      [by rewrite lookup_empty in Hh|].
    apply Hmem, Hback in Hk as (file & Hfile & _).
    assert (file = path) as -> by (rewrite <- Hs; symmetry; by apply Hfiled).
    congruence.
Qed.

Lemma load_then_write_gives_same_document_witness :
  build_state_json
    (map_to_list (state (lr_registrar
       (LoadPrevious map_to_list _ state_file_present id (registrar_at 0) 1))))
  = two_files_doc.
Proof.
  apply (load_then_write_gives_same_document map_to_list map_to_list _ state_file_present id
           (registrar_at 0) 1 two_files_doc).
  - intros m. reflexivity.
  - intros m. reflexivity.
  - reflexivity.
  - intros path fs H. unfold id, two_files_doc in H.
    apply lookup_insert_Some in H as [[<- <-]|[_ H]]; [done|].
    by apply lookup_singleton_Some in H as [<- <-].
Defined.

(** X28: what was written is what a restart reads. When no two tracked
    files carry the same path and the state file holds the document
    [Register] built from the state, the file states [LoadPrevious] puts in
    the registrar are exactly the ones that were tracked (under new
    [ProspectorInfo]s). *)
Theorem write_then_load_gives_same_states
    (range_state : gmap positive FileState -> list (positive * FileState))
    (range_data : gmap string FileState -> list (string * FileState))
    (File : Type) (os_Open : string -> option File)
    (json_Decode : File -> gmap string FileState) (r : Registrar) (next : positive) (f : File)
    (fs : FileState) :
  (∀ m, range_state m ≡ₚ map_to_list m) →
  (∀ m, range_data m ≡ₚ map_to_list m) →
  distinct_sources (state r) →
  os_Open (persistdir r +:+ PathSeparator +:+ ".log-courier") = Some f →
  json_Decode f = build_state_json (range_state (state r)) →
  (∃ p, state (lr_registrar (LoadPrevious range_data File os_Open json_Decode r next)) !! p
        = Some fs)
  ↔ (∃ p, state r !! p = Some fs).
Proof.
  intros Hps Hpd Hdist Hopen Hdoc.
  destruct (LoadPrevious_main_file range_data File os_Open json_Decode r next f Hpd Hopen)
    as (m & _ & _ & Hfwd & Hback).
  assert (∀ k h, (k, h) ∈ range_state (state r) ↔ state r !! k = Some h) as Hmem.
  { intros k h. rewrite (Hps (state r)). apply elem_of_map_to_list. }
  assert (NoDup ((fun kv => Source (snd kv)) <$> range_state (state r))) as Hnd.
  { apply NoDup_fmap_2_strong.
    - intros [p g] [q h] Hp Hq Heq. cbn in Heq.
      apply Hmem in Hp, Hq. assert (p = q) as -> by (by eapply Hdist). congruence.
    - rewrite (Hps (state r)). apply NoDup_map_to_list. }
  rewrite Hdoc in Hfwd, Hback. split.
  - intros [p Hp]. apply Hback in Hp as (file & Hfile & _).
    unfold build_state_json in Hfile.
    apply RegistrarFacts.build_json_lookup in Hfile as [Hfile|[_ [k Hk]]];
      [by rewrite lookup_empty in Hfile|].
    exists k. by apply Hmem.
  - intros [p Hp].
    destruct (Hfwd (Source fs) fs) as (p' & _ & Hp'); [|by exists p'].
    apply (build_json_keeps _ _ p); [done|]. by apply Hmem.
Qed.

Lemma write_then_load_gives_same_states_witness :
  ∃ p, state (lr_registrar
                (LoadPrevious map_to_list _
                   (fun path => if String.eqb path "/var/lib/log-courier/.log-courier"
                                then Some (build_state_json (map_to_list (tracked_at 10)))
                                else None)
                   id (registrar_at 10) 7)) !! p
       = Some (mkFileState "/var/log/a.log" 10 (mkFileIdentity 2049 77)).
Proof.
  apply (write_then_load_gives_same_states map_to_list map_to_list _ _ id (registrar_at 10) 7
           (build_state_json (map_to_list (tracked_at 10)))).
  - intros m. reflexivity.
  - intros m. reflexivity.
  - intros p q g h Hp Hq _. cbn in Hp, Hq. unfold tracked_at in Hp, Hq.
    apply lookup_singleton_Some in Hp as [<- _], Hq as [<- _]. done.
  - reflexivity.
  - reflexivity.
  - exists 1%positive. reflexivity.
Defined.

Lemma LoadPrevious_loop_fresh (visit : list (string * FileState)) :
  ∀ (resume : gmap string positive) (st : gmap positive FileState) (next : positive),
  NoDup visit.*1 →
  (∀ file, file ∈ visit.*1 → resume !! file = None) →
  (∀ file p, resume !! file = Some p → (p < next)%positive) →
  (∀ f g p, resume !! f = Some p → resume !! g = Some p → f = g) →
  (∀ f g p, (LoadPrevious_loop visit resume st next).1.1 !! f = Some p →
            (LoadPrevious_loop visit resume st next).1.1 !! g = Some p → f = g)
  ∧ (∀ file p, (LoadPrevious_loop visit resume st next).1.1 !! file = Some p →
               resume !! file = Some p
               ∨ (next ≤ p)%positive ∧ (p < (LoadPrevious_loop visit resume st next).2)%positive)
  ∧ (next ≤ (LoadPrevious_loop visit resume st next).2)%positive.
Proof.
  induction visit as [|[file fs] visit IH]; intros resume st next Hnd Hnew Hlt Hinj.
  - cbn. split_and!; [done| |lia]. intros file p H. by left.
  - cbn [LoadPrevious_loop]. rewrite lookup_insert_eq.
    cbn in Hnd. apply NoDup_cons in Hnd as [Hnin Hnd].
    specialize (IH (<[file := next]> resume) (<[next := fs]> st) (Pos.succ next) Hnd).
    destruct IH as (Hinj' & Hrange & Hle).
    + intros file0 Hf. rewrite lookup_insert_ne; [|by intros <-].
      apply Hnew. by apply list_elem_of_further.
    + intros file0 p Hp. destruct (decide (file = file0)) as [<-|Hne].
      * rewrite lookup_insert_eq in Hp. injection Hp as <-. lia.
      * rewrite lookup_insert_ne in Hp by done. apply Hlt in Hp. lia.
    + intros f g p Hf Hg.
      destruct (decide (file = f)) as [<-|Hnf]; destruct (decide (file = g)) as [<-|Hng];
        [done| | |].
      * rewrite lookup_insert_eq in Hf. injection Hf as <-.
        rewrite lookup_insert_ne in Hg by done. apply Hlt in Hg. lia.
      * rewrite lookup_insert_eq in Hg. injection Hg as <-.
        rewrite lookup_insert_ne in Hf by done. apply Hlt in Hf. lia.
      * rewrite lookup_insert_ne in Hf, Hg by done. by eapply Hinj.
    + split_and!; [done| |lia].
      intros file0 p Hp. apply Hrange in Hp as [Hp|[? ?]]; [|right; lia].
      destruct (decide (file = file0)) as [<-|Hne].
      * rewrite lookup_insert_eq in Hp. injection Hp as <-. right. lia.
      * rewrite lookup_insert_ne in Hp by done. by left.
Qed.

(** X9: [LoadPrevious] gives every path of the document a [ProspectorInfo]
    of its own: the resume map sends different paths to different new
    objects, none of which existed before the call. *)
Theorem LoadPrevious_resume_is_injective
    (range_data : gmap string FileState -> list (string * FileState))
    (File : Type) (os_Open : string -> option File)
    (json_Decode : File -> gmap string FileState) (r : Registrar) (next : positive)
    (m : gmap string positive) :
  (∀ d, range_data d ≡ₚ map_to_list d) →
  lr_resume (LoadPrevious range_data File os_Open json_Decode r next) = Some m →
  (∀ f g p, m !! f = Some p → m !! g = Some p → f = g)
  ∧ (∀ file p, m !! file = Some p →
       (next ≤ p)%positive
       ∧ (p < lr_next (LoadPrevious range_data File os_Open json_Decode r next))%positive).
Proof.
  intros Hperm. unfold LoadPrevious.
  assert (∀ (f : File) (opened : list string),
            let res := (let '(resume, st, next') :=
                          LoadPrevious_loop (range_data (json_Decode f)) ∅ ∅ next in
                        mkLoadResult (Some resume)
                          (mkRegistrar (references r) (persistdir r) (statefile r) st) next'
                          opened) in
            lr_resume res = Some m →
            (∀ f g p, m !! f = Some p → m !! g = Some p → f = g)
            ∧ (∀ file p, m !! file = Some p →
                 (next ≤ p)%positive ∧ (p < lr_next res)%positive)) as Hcase.
  { intros f opened.
    destruct (LoadPrevious_loop_fresh (range_data (json_Decode f)) ∅ ∅ next)
      as (Hinj & Hrange & _).
    - rewrite (Hperm _). apply NoDup_fst_map_to_list.
    - intros. apply lookup_empty.
    - intros file p H. by rewrite lookup_empty in H.
    - intros f0 g p H. by rewrite lookup_empty in H.
    - destruct (LoadPrevious_loop (range_data (json_Decode f)) ∅ ∅ next) as [[m' st] next'].
      cbn in *. intros [= <-]. split; [done|].
      intros file p Hp. apply Hrange in Hp as [Hp|?]; [by rewrite lookup_empty in Hp|done]. }
  destruct (os_Open (persistdir r +:+ PathSeparator +:+ ".log-courier")) as [f|].
  - apply Hcase.
  - destruct (os_Open (persistdir r +:+ PathSeparator +:+ ".log-courier.new")) as [f|].
    + apply Hcase.
    + done.
Qed.

Lemma LoadPrevious_resume_is_injective_witness :
  ∃ m, lr_resume (LoadPrevious map_to_list _ state_file_present id (registrar_at 0) 5) = Some m
       ∧ ∀ f g p, m !! f = Some p → m !! g = Some p → f = g.
Proof.
  destruct (lr_resume (LoadPrevious map_to_list _ state_file_present id (registrar_at 0) 5))
    as [m|] eqn:Hm.
  - exists m. split; [reflexivity|].
    apply (LoadPrevious_resume_is_injective map_to_list _ state_file_present id
             (registrar_at 0) 5 m).
    + intros d. reflexivity.
    + exact Hm.
  - vm_compute in Hm. discriminate.
Defined.


(** *** The users of the registrar *)

Lemma Connect_times_spec (n : nat) (r : Registrar) :
  Connect_times n r
  = mkRegistrar (references r + Z.of_nat n) (persistdir r) (statefile r) (state r).
Proof.
  induction n as [|n IH].
  - cbn. rewrite Z.add_0_r. by destruct r.
  - cbn [Connect_times]. rewrite IH. unfold Connect. cbn. f_equal. lia.
Qed.

Lemma Disconnect_times_open (k : nat) :
  ∀ (r : Registrar) (c : Transport.chan (list RegistrarEvent)),
  Z.of_nat k < references r →
  Disconnect_times k r c
  = Transport.Ok (mkRegistrar (references r - Z.of_nat k) (persistdir r) (statefile r)
                    (state r), c).
Proof.
  induction k as [|k IH]; intros r c Hk.
  - cbn. rewrite Z.sub_0_r. by destruct r.
  - cbn [Disconnect_times]. unfold Disconnect. cbn [references].
    destruct (Z.eqb_spec (references r - 1) 0) as [?|_]; [lia|].
    rewrite IH by (cbn; lia). cbn. do 2 f_equal. f_equal. lia.
Qed.

(** X10: the registrar's channel is closed by the [Disconnect] that brings
    the count of [Connect]s back to zero and by no earlier one; a user that
    connects after that point panics in its [Disconnect], which closes the
    closed channel again. *)
Theorem registrar_chan_closed_by_last_user
    (r : Registrar) (cap : nat) (buf : list (list RegistrarEvent)) (n k : nat) :
  references r = 0 →
  (k < n)%nat →
  Disconnect_times k (Connect_times n r) (Transport.Chan cap buf false)
  = Transport.Ok (mkRegistrar (Z.of_nat n - Z.of_nat k) (persistdir r) (statefile r) (state r),
                  Transport.Chan cap buf false)
  ∧ Disconnect_times n (Connect_times n r) (Transport.Chan cap buf false)
    = Transport.Ok (mkRegistrar 0 (persistdir r) (statefile r) (state r),
                    Transport.Chan cap buf true)
  ∧ Disconnect (Connect (mkRegistrar 0 (persistdir r) (statefile r) (state r)))
      (Transport.Chan cap buf true)
    = Transport.Panic "close of closed channel".
Proof.
  intros Hr Hk. rewrite Connect_times_spec, Hr, Z.add_0_l. split_and!.
  - by rewrite Disconnect_times_open by (cbn; lia).
  - destruct n as [|n]; [lia|].
    replace (S n) with (n + 1)%nat at 1 by lia.
    assert (∀ a b r0 c0, Disconnect_times (a + b) r0 c0
                         = match Disconnect_times a r0 c0 with
                           | Transport.Ok (r1, c1) => Disconnect_times b r1 c1
                           | other => other
                           end) as Happ.
    { induction a as [|a IH]; intros b r0 c0; [done|].
      cbn [Nat.add Disconnect_times]. destruct (Disconnect r0 c0) as [[r1 c1]| |]; [|done..].
      apply IH. }
    rewrite Happ, Disconnect_times_open by (cbn; lia).
    cbn [Disconnect_times references persistdir statefile state]. unfold Disconnect.
    cbn [references]. destruct (Z.eqb_spec (Z.of_nat (S n) - Z.of_nat n - 1) 0) as [He|?]; [|lia].
    cbn. by rewrite He.
  - reflexivity.
Qed.

Lemma registrar_chan_closed_by_last_user_witness :
  Disconnect_times 2 (Connect_times 2 (NewRegistrar "/var/lib/log-courier")) new_registrar_chan
  = Transport.Ok (NewRegistrar "/var/lib/log-courier", Transport.Chan 16 [] true).
Proof.
  destruct (registrar_chan_closed_by_last_user (NewRegistrar "/var/lib/log-courier")
              16 [] 2 1) as (_ & H & _).
  - reflexivity.
  - lia.
  - exact H.
Defined.

End RegistrarLaws.

(* ===================================================================== *)
(** ** Further properties of the transport *)
(* ===================================================================== *)

Module TransportLaws.
Import Transport Frames.

(** *** Signals and the write buffer *)

(** X11: the readiness signals do not pile up. On an open signal channel
    of capacity 1, as [Connect] makes them, [setChan] never blocks or
    panics, leaves exactly one signal pending (a new one only when none was
    pending), and any number of further calls change nothing. *)
Theorem setChan_coalesces (buf : list Z) (n : nat) :
  (length buf ≤ 1)%nat →
  ∃ c, setChan (Chan 1 buf false) = Ok c
       ∧ chan_len c = 1%nat
       ∧ (buf = [] → c = Chan 1 [1] false)
       ∧ (buf ≠ [] → c = Chan 1 buf false)
       ∧ setChan_times n c = Ok c.
Proof.
  intros Hlen. destruct buf as [|x [|y buf]]; [| |cbn in Hlen; lia].
  - exists (Chan 1 [1] false). split_and!; try done.
    induction n as [|n IH]; [done|]. exact IH.
  - exists (Chan 1 [x] false). split_and!; try done.
    induction n as [|n IH]; [done|]. exact IH.
Qed.

Lemma setChan_coalesces_witness :
  setChan_times 3 (Chan 1 [1] false) = Ok (Chan 1 [1] false).
Proof.
  destruct (setChan_coalesces [] 3) as (c & H1 & _ & H2 & _ & H3).
  - cbn. lia.
  - rewrite <- (H2 eq_refl) at 1 2. exact H3.
Defined.




(** X13: a transport that was never connected has nil channels and no
    socket: [Disconnect] panics, and [Flush] and [Read] block for ever,
    whatever has been written. *)
Theorem unconnected_transport_is_unusable
    (cfg : NetworkConfig) (re : string -> option (string * string)) (ps : list (list byte)) :
  Disconnect (Write_all (CreateTransportTls cfg re) ps) = Panic "close of nil channel"
  ∧ Flush (Write_all (CreateTransportTls cfg re) ps) = Blocked
  ∧ Read (Write_all (CreateTransportTls cfg re) ps) = Blocked.
Proof.
  assert (∀ t, shutdown (Write_all t ps) = shutdown t
               ∧ send_chan (Write_all t ps) = send_chan t
               ∧ recv_chan (Write_all t ps) = recv_chan t) as H.
  { unfold Write_all. induction ps as [|p ps IH]; intros t; [done|].
    cbn [fold_left]. destruct (IH (fst (Write t p))) as (H1 & H2 & H3).
    by rewrite H1, H2, H3. }
  destruct (H (CreateTransportTls cfg re)) as (Hsd & Hsc & Hrc).
  unfold Disconnect, Flush, Read. rewrite Hsd, Hsc, Hrc. done.
Qed.


(** *** Connecting *)

(** X14: with an empty list of servers the choice of a server divides by
    zero: [Connect] panics at its first attempt instead of retrying or
    returning an error. *)
Theorem Connect_without_servers_panics
    (t : TransportTls) (a : attempt) (script : list attempt) :
  Servers (config t) = [] →
  Connect t (a :: script) = Panic "integer divide by zero".
Proof.
  intros H. unfold Connect. cbn. unfold Connect_attempt. by rewrite H.
Qed.

Lemma Connect_without_servers_panics_witness :
  Connect (CreateTransportTls (mkNetworkConfig [] 15 1) sample_re) [attempt_ok]
  = Panic "integer divide by zero".
Proof.
  apply (Connect_without_servers_panics
           (CreateTransportTls (mkNetworkConfig [] 15 1) sample_re) attempt_ok []).
  reflexivity.
Defined.

Lemma nth_mod_elem {A : Type} (l : list A) (d : A) (r : nat) :
  l ≠ [] → nth (r mod length l) l d ∈ l.
Proof.
  intros Hl. apply list_elem_of_In, nth_In, Nat.mod_upper_bound.
  by destruct l.
Qed.

Lemma Connect_attempt_established (t : TransportTls) (a : attempt) (c : Conn) :
  Connect_attempt t a = Established c →
  ∃ hostport host port addrs address,
    hostport ∈ Servers (config t)
    ∧ hostport_re t hostport = Some (host, port)
    ∧ LookupHost a host = Some addrs
    ∧ address ∈ addrs
    ∧ DialTimeout a (JoinHostPort address port) = true
    ∧ Handshake a = true
    ∧ c = mkConn (JoinHostPort address port) false.
Proof.
  unfold Connect_attempt.
  destruct (Servers (config t)) as [|s0 servers] eqn:Hs; [done|].
  set (hostport := nth _ _ _).
  destruct (hostport_re t hostport) as [[host port]|] eqn:Hre; [|done].
  destruct (LookupHost a host) as [[|a0 addrs]|] eqn:Hl; [done| |done].
  set (address := nth _ _ _).
  destruct (DialTimeout a _) eqn:Hd; [|done].
  destruct (Handshake a) eqn:Hh; [|done].
  intros [= <-].
  exists hostport, host, port, (a0 :: addrs), address.
  split_and!; try done.
  - by apply nth_mod_elem.
  - by apply nth_mod_elem.
Qed.

(** X15: [Connect] only ever connects to a configured server: the socket it
    returns with is to an address that the resolver gave for the host of one
    of the entries of [Servers], at that entry's port, and the dial and the
    TLS handshake of that attempt both succeeded. *)
Theorem Connect_reaches_a_configured_server
    (t t' : TransportTls) (script rest : list attempt) :
  Connect t script = Ok (t', rest) →
  ∃ a hostport host port addrs address,
    a ∈ script
    ∧ hostport ∈ Servers (config t)
    ∧ hostport_re t hostport = Some (host, port)
    ∧ LookupHost a host = Some addrs
    ∧ address ∈ addrs
    ∧ DialTimeout a (JoinHostPort address port) = true
    ∧ Handshake a = true
    ∧ socket t' = Some (mkConn (JoinHostPort address port) false)
    ∧ config t' = config t.
Proof.
  unfold Connect.
  destruct (Connect_loop t script) as [[c rest']| |] eqn:Hloop; [|done..].
  cbn. intros [= <- <-].
  assert (∃ a, a ∈ script ∧ Connect_attempt t a = Established c) as (a & Ha & Hest).
  { clear -Hloop. induction script as [|a script IH]; [done|].
    cbn in Hloop. destruct (Connect_attempt t a) as [c'| |] eqn:Hatt.
    - injection Hloop as <- <-. exists a. split; [apply list_elem_of_here|done].
    - destruct (IH Hloop) as (a' & Ha' & H'). exists a'.
      split; [by apply list_elem_of_further|done].
    - done. }
  apply Connect_attempt_established in Hest
    as (hostport & host & port & addrs & address & H1 & H2 & H3 & H4 & H5 & H6 & ->).
  exists a, hostport, host, port, addrs, address. by split_and!.
Qed.

Lemma Connect_reaches_a_configured_server_witness :
  ∃ a hostport host port addrs address,
    a ∈ [resolver_down; attempt_ok]
    ∧ hostport ∈ Servers (config new_transport)
    ∧ hostport_re new_transport hostport = Some (host, port)
    ∧ LookupHost a host = Some addrs
    ∧ address ∈ addrs
    ∧ DialTimeout a (JoinHostPort address port) = true
    ∧ Handshake a = true
    ∧ socket connected_transport = Some (mkConn (JoinHostPort address port) false)
    ∧ config connected_transport = config new_transport.
Proof.
  apply (Connect_reaches_a_configured_server new_transport connected_transport
           [resolver_down; attempt_ok] []).
  reflexivity.
Defined.






(** *** Reading frames *)

Lemma byteZ_range (b : byte) : 0 <= byteZ b < 256.
Proof. destruct b; vm_compute; split; congruence. Qed.

Lemma land_shiftl_low (a b k : Z) :
  0 <= k → 0 <= b < 2 ^ k → Z.land (Z.shiftl a k) b = 0.
Proof.
  intros Hk [Hb0 Hb]. apply Z.bits_inj'. intros n Hn.
  rewrite Z.land_spec, Z.bits_0.
  destruct (Z.lt_ge_cases n k) as [Hlt|Hge].
  - by rewrite Z.shiftl_spec_low.
  - rewrite andb_false_intro2; [done|].
    destruct (Z.eq_dec b 0) as [->|Hne]; [apply Z.bits_0|].
    apply Z.bits_above_log2; [done|].
    assert (Z.log2 b < k) by (apply Z.log2_lt_pow2; lia). lia.
Qed.

Lemma lor_shiftl_low (a b k : Z) :
  0 <= k → 0 <= b < 2 ^ k → Z.lor (Z.shiftl a k) b = a * 2 ^ k + b.
Proof.
  intros Hk Hb.
  pose proof (Z.add_lor_land (Z.shiftl a k) b) as H.
  rewrite land_shiftl_low, Z.add_0_r in H by done.
  by rewrite H, Z.shiftl_mul_pow2.
Qed.

(** X17: [Uint32] reads four bytes as a big-endian number: the first byte
    is the most significant, and the result is below 2^32. *)
Theorem Uint32_is_big_endian (b0 b1 b2 b3 : byte) (more : list byte) :
  Uint32 (b0 :: b1 :: b2 :: b3 :: more)
  = byteZ b0 * 2 ^ 24 + byteZ b1 * 2 ^ 16 + byteZ b2 * 2 ^ 8 + byteZ b3
  ∧ 0 <= Uint32 (b0 :: b1 :: b2 :: b3 :: more) < 2 ^ 32.
Proof.
  pose proof (byteZ_range b0). pose proof (byteZ_range b1).
  pose proof (byteZ_range b2). pose proof (byteZ_range b3).
  assert (Uint32 (b0 :: b1 :: b2 :: b3 :: more)
          = byteZ b0 * 2 ^ 24 + byteZ b1 * 2 ^ 16 + byteZ b2 * 2 ^ 8 + byteZ b3) as ->.
  { unfold Uint32.
    rewrite (lor_shiftl_low (byteZ b1) _ 16 ltac:(lia)) || idtac.
    replace (Z.lor (Z.shiftl (byteZ b0) 24) (Z.shiftl (byteZ b1) 16))
      with (Z.shiftl (byteZ b0 * 2 ^ 8 + byteZ b1) 16).
    2:{ rewrite <- (lor_shiftl_low (byteZ b0) (byteZ b1) 8) by lia.
        rewrite Z.shiftl_lor, Z.shiftl_shiftl by lia. done. }
    replace (Z.lor (Z.shiftl (byteZ b0 * 2 ^ 8 + byteZ b1) 16) (Z.shiftl (byteZ b2) 8))
      with (Z.shiftl ((byteZ b0 * 2 ^ 8 + byteZ b1) * 2 ^ 8 + byteZ b2) 8).
    2:{ rewrite <- (lor_shiftl_low (byteZ b0 * 2 ^ 8 + byteZ b1) (byteZ b2) 8) by lia.
        rewrite Z.shiftl_lor, Z.shiftl_shiftl by lia. done. }
    rewrite lor_shiftl_low by lia. lia. }
  split; [done|lia].
Qed.

Lemma Uint32_range (bs : list byte) : 0 <= Uint32 bs < 2 ^ 32.
Proof.
  destruct bs as [|b0 [|b1 [|b2 [|b3 more]]]]; try (cbn; lia).
  apply Uint32_is_big_endian.
Qed.

Lemma copy_at_length (data bs : list byte) (off : nat) :
  (off + length bs ≤ length data)%nat →
  length (copy_at data off bs) = length data.
Proof.
  intros H. unfold copy_at. rewrite !length_app, length_take, length_drop. lia.
Qed.

Lemma receiverRead_from_read (bs : list byte) (err : option error)
    (rest : list sock_event) (data : list byte) (received : nat) :
  receiverRead_from (SockRead bs err :: rest) data received
  = if (length data - received =? 0)%nat then
      ReadDone data None false (SockRead bs err :: rest)
    else if (length data - received <? length bs)%nat then
      ReadDone (copy_at data received (take (length data - received) bs)) None false
               (SockRead (drop (length data - received) bs) err :: rest)
    else
      match err with
      | None => ReadDone (copy_at data received bs) None false rest
      | Some e =>
          if (length data <=? received + length bs)%nat
          then ReadDone (copy_at data received bs) None false rest
          else if Timeout e
               then receiverRead_from rest (copy_at data received bs) (received + length bs)
               else ReadDone (copy_at data received bs) (Some e) false rest
      end.
Proof. reflexivity. Qed.

Lemma receiverRead_from_spec (script : list sock_event) :
  ∀ (data : list byte) (received : nat)
    (data' : list byte) (err : option error) (shut : bool) (rest : list sock_event),
  (received ≤ length data)%nat →
  receiverRead_from script data received = ReadDone data' err shut rest →
  length data' = length data
  ∧ (∀ e, err = Some e → Timeout e = false)
  ∧ (shut = true → err = None).
Proof.
  induction script as [|ev script IH]; intros data received data' err shut rest Hr.
  - cbn. destruct (length data - received =? 0)%nat; [|done].
    by intros [= <- <- <- <-].
  - destruct ev as [|bs e].
    + cbn. by intros [= <- <- <- <-].
    + rewrite receiverRead_from_read.
      destruct (Nat.eqb_spec (length data - received) 0) as [?|Hroom].
      { by intros [= <- <- <- <-]. }
      destruct (Nat.ltb_spec (length data - received) (length bs)) as [Hbig|Hfit].
      { intros [= <- <- <- <-]. split_and!; [|done..].
        apply copy_at_length. rewrite length_take. lia. }
      assert (length (copy_at data received bs) = length data) as Hlen
        by (apply copy_at_length; lia).
      destruct e as [e|].
      * destruct (length data <=? received + length bs)%nat.
        { by intros [= <- <- <- <-]. }
        destruct (Timeout e) eqn:He.
        -- intros H. apply IH in H as (H1 & H2 & H3); [|lia]. by rewrite H1.
        -- intros [= <- <- <- <-]. split_and!; [done| |done].
           intros e' [= <-]. done.
      * by intros [= <- <- <- <-].
Qed.

(** X18: [receiverRead] never returns a buffer of another length than it
    was given, never returns a timeout as its error (a timed out read is
    tried again), and reports either an error or the shutdown, not both. *)
Theorem receiverRead_keeps_buffer_and_hides_timeouts
    (script rest : list sock_event) (data data' : list byte) (err : option error)
    (shut : bool) :
  receiverRead script data = ReadDone data' err shut rest →
  length data' = length data
  ∧ (∀ e, err = Some e → Timeout e = false)
  ∧ (shut = true → err = None).
Proof. unfold receiverRead. apply receiverRead_from_spec. lia. Qed.

Lemma receiverRead_keeps_buffer_and_hides_timeouts_witness :
  receiverRead [SockRead [Byte.x41] (Some io_timeout);
                SockRead [Byte.x43] (Some (NetError false "connection reset"))]
               (make_bytes 4)
  = ReadDone [Byte.x41; Byte.x43; Byte.x00; Byte.x00]
             (Some (NetError false "connection reset")) false []
  ∧ Timeout (NetError false "connection reset") = false.
Proof.
  split; [reflexivity|].
  destruct (receiverRead_keeps_buffer_and_hides_timeouts
              [SockRead [Byte.x41] (Some io_timeout);
               SockRead [Byte.x43] (Some (NetError false "connection reset"))] []
              (make_bytes 4) [Byte.x41; Byte.x43; Byte.x00; Byte.x00]
              (Some (NetError false "connection reset")) false) as (_ & H & _).
  - reflexivity.
  - by apply H.
Defined.


Lemma copy_length (dst src : list byte) : length (copy dst src) = length dst.
Proof. unfold copy. rewrite length_app, length_take, length_drop. lia. Qed.

(** X19: a length field of 2^32 - 8 or more makes the [uint32] sum
    [8 + length] wrap around: the receiver reports the frame as too large,
    then allocates fewer than 8 bytes and panics on slicing [message[8:]],
    which takes the whole process down instead of the connection. *)
Theorem receiver_panics_when_length_wraps
    (fuel : nat) (header0 h : list byte) (rest : list sock_event) :
  length header0 = 8%nat →
  length h = 8%nat →
  2 ^ 32 - 8 <= Uint32 (take 4 (drop 4 h)) →
  receiver_loop (S fuel) (SockRead h None :: rest) header0
  = ([OutRecv (RecvErr (too_large (Uint32 (take 4 (drop 4 h)))))],
     TaskPanic "slice bounds out of range").
Proof.
  intros H0 Hh Hwrap.
  rewrite TransportFacts.receiver_loop_unfold.
  rewrite TransportFacts.receiverRead_exact by lia.
  cbv zeta. pose proof (Uint32_range (take 4 (drop 4 h))) as Hrange.
  set (L := Uint32 (take 4 (drop 4 h))) in *.
  destruct (Z.ltb_spec 1048576 L) as [_|?]; [|lia].
  rewrite copy_length. unfold make_bytes. rewrite length_replicate.
  replace ((8 + L) mod 2 ^ 32) with (8 + L - 2 ^ 32)
    by (apply Z.mod_unique with (q := 1); lia).
  destruct (Nat.ltb_spec (Z.to_nat (8 + L - 2 ^ 32)) 8) as [_|?]; [done|lia].
Qed.

Lemma receiver_panics_when_length_wraps_witness :
  receiver [SockRead wrapping_header None]
  = ([OutRecv (RecvErr (PlainError "Received message too large (4294967292)"))],
     TaskPanic "slice bounds out of range").
Proof.
  unfold receiver. rewrite TransportFacts.script_size_read.
  rewrite (receiver_panics_when_length_wraps _ (make_bytes 8) wrapping_header []).
  - reflexivity.
  - reflexivity.
  - reflexivity.
  - vm_compute. discriminate.
Defined.

Lemma receiver_loop_frame (fuel : nat) (header0 h p : list byte) (rest : list sock_event) :
  length header0 = 8%nat →
  well_formed (h, p) →
  receiver_loop (S fuel) (SockRead h None :: SockRead p None :: rest) header0
  = ([OutRecv (RecvMsg (h ++ p)); OutCanRecv] ++ fst (receiver_loop fuel rest h),
     snd (receiver_loop fuel rest h)).
Proof.
  intros H0 (Hh & HL & Hpos & Hmax). cbn [fst snd] in *.
  rewrite TransportFacts.receiver_loop_unfold.
  rewrite TransportFacts.receiverRead_exact by lia.
  cbv zeta. rewrite HL.
  destruct (Z.ltb_spec 1048576 (Z.of_nat (length p))) as [?|_]; [lia|].
  rewrite Z.mod_small by lia.
  replace (Z.to_nat (8 + Z.of_nat (length p))) with (8 + length p)%nat by lia.
  rewrite TransportFacts.message_buffer by lia.
  replace (8 + length p - 8)%nat with (length p) by lia.
  rewrite length_app, length_replicate, Hh.
  destruct (Nat.ltb_spec (8 + length p) 8) as [?|_]; [lia|].
  rewrite (drop_app_length' h _ 8) by done.
  rewrite TransportFacts.receiverRead_exact by (rewrite ?length_replicate; lia).
  rewrite (take_app_length' h _ 8) by done.
  by destruct (receiver_loop fuel rest h).
Qed.

Lemma receiver_loop_frames (frames : list frame) :
  ∀ (fuel : nat) (header0 : list byte),
  Forall well_formed frames →
  length header0 = 8%nat →
  (length frames < fuel)%nat →
  receiver_loop fuel (frame_reads frames ++ [SockShutdown]) header0
  = (frame_outs frames, TaskDone).
Proof.
  induction frames as [|[h p] frames IH]; intros fuel header0 Hwf H0 Hfuel.
  - destruct fuel as [|fuel]; [cbn in Hfuel; lia|]. reflexivity.
  - destruct fuel as [|fuel]; [cbn in Hfuel; lia|].
    apply Forall_cons in Hwf as [Hfr Hwf].
    cbn [frame_reads frame_outs flat_map app fst snd].
    rewrite receiver_loop_frame by done.
    fold (frame_reads frames). fold (frame_outs frames).
    rewrite IH; [done|done| |cbn in Hfuel; lia].
    by destruct Hfr.
Qed.

Lemma script_size_frames (frames : list frame) (rest : list sock_event) :
  (length frames ≤ script_size (frame_reads frames ++ rest))%nat.
Proof.
  induction frames as [|[h p] frames IH]; [cbn; lia|].
  cbn [frame_reads flat_map app fst snd length].
  rewrite !TransportFacts.script_size_read. fold (frame_reads frames). lia.
Qed.

(** X20: the receiver splits the stream into frames: a sequence of frames
    whose headers announce their (non-empty, at most 1 MiB) payloads, each
    header and each payload arriving in one read, is delivered to the reader
    frame by frame, in order, header included, with [can_recv] raised after
    each; the shutdown that follows ends the receiver without an error. *)
Theorem receiver_delivers_frames_in_order (frames : list frame) :
  Forall well_formed frames →
  receiver (frame_reads frames ++ [SockShutdown]) = (frame_outs frames, TaskDone).
Proof.
  intros Hwf. unfold receiver. apply receiver_loop_frames; [done|done|].
  pose proof (script_size_frames frames [SockShutdown]). lia.
Qed.

Lemma ackn_frame_well_formed (seq : byte) : well_formed (ackn_frame seq).
Proof. unfold well_formed. cbn. split_and!; [done|done|lia|lia]. Qed.

Lemma receiver_delivers_frames_in_order_witness :
  receiver (frame_reads [ackn_frame Byte.x01; ackn_frame Byte.x02] ++ [SockShutdown])
  = (frame_outs [ackn_frame Byte.x01; ackn_frame Byte.x02], TaskDone).
Proof.
  apply (receiver_delivers_frames_in_order [ackn_frame Byte.x01; ackn_frame Byte.x02]).
  repeat constructor; apply ackn_frame_well_formed.
Defined.


(** *** What reaches the reader *)

Lemma receiver_exit_no_timeout (err : option error) (e : error) :
  (∀ e', err = Some e' → Timeout e' = false) →
  OutRecv (RecvErr e) ∈ receiver_exit err → Timeout e = false.
Proof.
  intros Herr. destruct err as [e'|]; cbn.
  - intros [[= <-]|H]%elem_of_cons; [by apply Herr|].
    apply elem_of_cons in H as [?|H]; [done|by apply elem_of_nil in H].
  - by intros ?%elem_of_nil.
Qed.

Lemma receiver_loop_no_timeout (fuel : nat) :
  ∀ (script : list sock_event) (header : list byte) (e : error),
  OutRecv (RecvErr e) ∈ fst (receiver_loop fuel script header) → Timeout e = false.
Proof.
  induction fuel as [|fuel IH]; intros script header e.
  { cbn. by intros ?%elem_of_nil. }
  rewrite TransportFacts.receiver_loop_unfold.
  destruct (receiverRead script header) as [h1 err1 sd1 rest1|] eqn:Hr1;
    [|cbn; by intros ?%elem_of_nil].
  apply receiverRead_from_spec in Hr1 as (_ & Herr1 & _); [|lia].
  destruct err1 as [e1|].
  { cbn [fst]. by apply receiver_exit_no_timeout. }
  destruct sd1; [cbn; by intros ?%elem_of_nil|].
  cbv zeta.
  set (sanity := if 1048576 <? _ then _ else _).
  assert (OutRecv (RecvErr e) ∈ sanity → Timeout e = false) as Hsanity.
  { subst sanity. destruct (1048576 <? _).
    - intros [= ->]%list_elem_of_singleton. done.
    - by intros ?%elem_of_nil. }
  destruct (_ <? 8)%nat; [done|].
  destruct (receiverRead rest1 _) as [pl err2 sd2 rest2|] eqn:Hr2; [|done].
  apply receiverRead_from_spec in Hr2 as (_ & Herr2 & _); [|lia].
  destruct err2 as [e2|].
  { cbn [fst]. intros [?|?]%elem_of_app; [by apply Hsanity|].
    by eapply receiver_exit_no_timeout. }
  destruct sd2; [done|].
  specialize (IH rest2 h1 e).
  destruct (receiver_loop fuel rest2 h1) as [outs fin]. cbn [fst] in *.
  intros [?|H]%elem_of_app; [by apply Hsanity|].
  apply elem_of_cons in H as [?|H]; [done|].
  apply elem_of_cons in H as [?|H]; [done|]. by apply IH.
Qed.

Lemma sender_from_no_timeout (inbox : list select_event) :
  ∀ (sock : list write_event) (shut : bool) (e : error),
  OutRecv (RecvErr e) ∈ fst (sender_from inbox sock shut) → Timeout e = false.
Proof.
  induction inbox as [|ev inbox IH]; intros sock shut e.
  { cbn. by intros ?%elem_of_nil. }
  destruct ev as [|msg]; cbn [sender_from]; [cbn; by intros ?%elem_of_nil|].
  destruct (Wrap_Write sock msg shut) as [n err ds shut' sock'|]; [|cbn; by intros ?%elem_of_nil].
  destruct err as [e'|].
  - destruct (Timeout e') eqn:He'; [cbn; by intros ?%elem_of_nil|].
    specialize (IH sock' shut' e).
    destruct (sender_from inbox sock' shut') as [outs fin]. cbn [fst] in *.
    intros [[= <-]|H]%elem_of_cons; [done|].
    apply elem_of_cons in H as [?|H]; [done|]. by apply IH.
  - specialize (IH sock' shut' e).
    destruct (sender_from inbox sock' shut') as [outs fin]. cbn [fst] in *.
    intros [?|H]%elem_of_cons; [done|]. by apply IH.
Qed.

(** X21: a timeout of the socket is never passed to the reader of the
    transport: whatever the socket and the rest of the program do, no error
    that the receiver or the sender puts on [recv_chan] is a timeout. *)
Theorem timeouts_never_reach_the_reader
    (script : list sock_event) (inbox : list select_event) (sock : list write_event)
    (e : error) :
  OutRecv (RecvErr e) ∈ fst (receiver script) ∨ OutRecv (RecvErr e) ∈ fst (sender inbox sock) →
  Timeout e = false.
Proof.
  intros [H|H].
  - by eapply receiver_loop_no_timeout.
  - by eapply sender_from_no_timeout.
Qed.

Lemma timeouts_never_reach_the_reader_witness :
  receiver [SockRead [] (Some io_timeout); SockRead [] (Some (NetError false "EOF"))]
  = ([OutRecv (RecvErr (NetError false "EOF")); OutCanRecv], TaskDone)
  ∧ Timeout (NetError false "EOF") = false.
Proof.
  split; [reflexivity|].
  apply (timeouts_never_reach_the_reader
           [SockRead [] (Some io_timeout); SockRead [] (Some (NetError false "EOF"))] [] []).
  left. apply list_elem_of_here.
Defined.

(** X22: on a socket that takes every message at the first attempt the
    sender writes the messages it is given in order and raises [can_send]
    once per message, then ends at the shutdown; it puts nothing on
    [recv_chan]. *)
Theorem sender_signals_once_per_message (msgs : list (list byte)) :
  sender (map SelMsg msgs ++ [SelShutdown]) (whole_writes msgs)
  = (replicate (length msgs) OutCanSend, TaskDone).
Proof.
  unfold sender. induction msgs as [|msg msgs IH]; [reflexivity|].
  cbn [map app whole_writes sender_from length replicate].
  change (Wrap_Write (WWrite (length msg) None :: map _ msgs) msg false)
    with (WriteDone (length msg) None [socket_interval_seconds] false (whole_writes msgs)).
  cbn match. by rewrite IH.
Qed.

End TransportLaws.

(* ===================================================================== *)
(** ** Further properties of the binary and of the collectors *)
(* ===================================================================== *)

Module LogCourierLaws.
Import LogCourier.

(** X23: a reload whose load succeeds always returns nil and takes effect:
    [lc.config] and the pipeline's components get the new configuration
    object, the log level is the new one, an open log file is reopened, and
    the objects of earlier configurations are not touched. That holds also
    when the metrics listener cannot be restarted: that error is only
    logged. *)
Theorem reload_success_applies_config
    (lc : logCourier) (ld : load_outcome) (serr : option error) :
  snd ld = None →
  snd (reloadConfig lc ld serr) = None
  ∧ config (fst (reloadConfig lc ld serr)) = Some (next lc)
  ∧ workers_config (fst (reloadConfig lc ld serr)) = Some (next lc)
  ∧ heap (fst (reloadConfig lc ld serr)) !! next lc = Some (fst ld)
  ∧ (∀ p, (p < next lc)%positive → heap (fst (reloadConfig lc ld serr)) !! p = heap lc !! p)
  ∧ log_level (fst (reloadConfig lc ld serr)) = LogLevel (fst ld)
  ∧ reopened (fst (reloadConfig lc ld serr))
    = match logFile lc with Some _ => S (reopened lc) | None => reopened lc end.
Proof.
  destruct ld as [cfg le]. cbn. intros ->.
  unfold reloadConfig, loadConfig. cbn [fst snd].
  unfold startListener, current. cbn. rewrite !lookup_insert_eq. cbn.
  destruct (metricsServer lc) as [srv|], serr as [e|], (String.eqb (ListenAddress cfg) "");
    cbn; rewrite ?lookup_insert_eq;
    (split_and!; [done|done|done|done| |done|done]);
    intros p Hp; by rewrite !lookup_insert_ne by lia.
Qed.

Lemma reload_success_applies_config_witness :
  workers_config
    (fst (reloadConfig running_agent (mkConfig 2 5 true "" "" "/metrics" false "/tmp", None)
            (Some (Transport.PlainError "listener busy"))))
  = Some 2%positive.
Proof.
  destruct (reload_success_applies_config running_agent
              (mkConfig 2 5 true "" "" "/metrics" false "/tmp", None)
              (Some (Transport.PlainError "listener busy"))) as (_ & _ & H & _).
  - reflexivity.
  - exact H.
Defined.




(** X25: when the agent reads stdin it builds neither the admin server nor
    the prospector, so their failures cannot stop it: the pipeline is built
    whenever the publisher's collector registers, and the end of stdin is a
    clean exit with status 0. *)
Theorem stdin_mode_skips_admin_and_prospector
    (fl : Flags) (env : StartEnv) (lc : logCourier) (events : list run_event) :
  startUp newLogCourier fl env = Continue lc →
  f_stdin fl = true →
  e_registerPublisher env = true →
  (∃ lc1, buildPipeline lc env = Continue lc1)
  ∧ Run fl env (HarvesterFinished :: events) = Exited 0.
Proof.
  intros Hs Hstdin Hreg.
  destruct (LogCourierFacts.startUp_continue fl env lc Hs) as [Hlc _].
  rewrite Hstdin in Hlc.
  assert (∃ lc1, buildPipeline lc env = Continue lc1 ∧ stdin lc1 = true) as (lc1 & Hb & Hs1).
  { unfold buildPipeline. rewrite Hlc, Hreg. cbn. eexists. split; [done|]. done. }
  split; [by exists lc1|].
  unfold Run. rewrite Hs, Hb. cbn. by rewrite Hs1.
Qed.

Lemma stdin_mode_skips_admin_and_prospector_witness :
  Run (mkFlags false false false "" "/etc/log-courier/log-courier.conf" true false)
      prospector_fails [HarvesterFinished] = Exited 0.
Proof.
  destruct (startUp newLogCourier
              (mkFlags false false false "" "/etc/log-courier/log-courier.conf" true false)
              prospector_fails) as [lc|c] eqn:Hs.
  - destruct (stdin_mode_skips_admin_and_prospector
                (mkFlags false false false "" "/etc/log-courier/log-courier.conf" true false)
                prospector_fails lc [] Hs eq_refl eq_refl) as [_ H].
    exact H.
  - vm_compute in Hs. discriminate.
Defined.



End LogCourierLaws.

Module MetricsLaws.
Import Metrics.

Lemma count_open_acc (visit : list (positive * prospectorInfo)) (n : Z) :
  fold_left (fun filesOpen kv =>
               match harvester (snd kv) with
               | Some _ => filesOpen + 1
               | None => filesOpen
               end) visit n
  = n + Z.of_nat (length (filter (fun kv => is_Some (harvester (snd kv))) visit)).
Proof.
  revert n. induction visit as [|[k info] visit IH]; intros n; [cbn; lia|].
  cbn [fold_left snd]. destruct (harvester info) as [h|] eqn:Hh; rewrite IH.
  - rewrite filter_cons_True by (cbn; rewrite Hh; by eexists).
    rewrite length_cons. lia.
  - rewrite filter_cons_False; [done|]. cbn. rewrite Hh. by intros [? ?].
Qed.

Lemma size_open_files (index : gmap positive prospectorInfo) :
  size (open_files index)
  = length (filter (fun kv => is_Some (harvester (snd kv))) (map_to_list index)).
Proof.
  unfold open_files. rewrite map_filter_alt, <- length_map_to_list.
  rewrite map_to_list_to_map; [done|].
  apply (sublist_NoDup _ (map_to_list index).*1).
  - apply NoDup_fst_map_to_list.
  - apply fmap_sublist, sublist_filter.
Qed.

(** X27: the files-open gauge is the number of tracked files that have a
    harvester, whatever order the index is visited in; it is never negative
    and never more than the number of tracked files. Both collectors emit
    exactly the descriptors they describe, in the same order. *)
Theorem files_open_counts_harvesters
    (visit : list (positive * prospectorInfo)) (index : gmap positive prospectorInfo)
    (p : Publisher) :
  visit ≡ₚ map_to_list index →
  Prospector_Collect visit
  = [mkMetric filesOpenDesc GaugeValue (Z.of_nat (size (open_files index)))]
  ∧ 0 <= Z.of_nat (size (open_files index)) <= Z.of_nat (size index)
  ∧ m_desc <$> Prospector_Collect visit = Prospector_Describe
  ∧ m_desc <$> Publisher_Collect p = Publisher_Describe.
Proof.
  intros Hperm. split_and!; [|lia| |done|done].
  - unfold Prospector_Collect, count_open. rewrite count_open_acc, Z.add_0_l.
    do 3 f_equal. by rewrite Hperm, size_open_files.
  - apply Nat2Z.inj_le. unfold open_files. apply map_size_filter.
Qed.

Lemma files_open_counts_harvesters_witness :
  Prospector_Collect (map_to_list sample_index) = [mkMetric filesOpenDesc GaugeValue 1].
Proof.
  destruct (files_open_counts_harvesters (map_to_list sample_index) sample_index
              (mkPublisher 0 0)) as (H & _).
  - reflexivity.
  - exact H.
Defined.

End MetricsLaws.
